(** * Live-location dashboard: location acquisition, tracking controller,
      alert and trail bookkeeping

    A shallow embedding of [static/js/enhanced_tracking.js]: the class
    [EnhancedTrackingFeatures] (alerts, route trails) and the class
    [LocationTracker] (multi-attempt acquisition, start/stop life cycle,
    watch callbacks), followed by the properties established about them.

    Conventions of the embedding.
    - A JavaScript number is a rational [Q]; the code only compares numbers
      and rounds them for display, so no floating-point rounding is involved.
      [NaN] and the infinities are not represented.
    - A property that may be absent, [null] or a number is a [JsVal].
    - Object keys and identifiers that the code interpolates into template
      strings are [string]s.
    - Browser callbacks and [fetch] answers are inputs of the operation they
      complete: every asynchronous method takes the answers of its
      environment as an argument and runs to its next quiescent point.
      Interleaving of other callbacks inside an [await] is not represented.
    - DOM writes are kept only where the controller's behaviour shows in
      them: toast messages, the tracking-UI refresh, polylines put on the map. *)

From Stdlib Require Import QArith Qround Lqa.
From stdpp Require Import gmap strings list fin_maps pretty.

Open Scope Z_scope.

(** ** JavaScript values *)

Module Js.

Inductive JsVal : Type :=
| JUndefined
| JNull
| JNum (q : Q).

(** [ToBoolean]: [undefined], [null] and [0] are falsy. *)
Definition truthy (v : JsVal) : bool :=
  match v with
  | JNum q => negb (Qeq_bool q 0)
  | _ => false
  end.

(** [a !== b]. *)
Definition strict_neq (a b : JsVal) : bool :=
  match a, b with
  | JUndefined, JUndefined => false
  | JNull, JNull => false
  | JNum x, JNum y => negb (Qeq_bool x y)
  | _, _ => true
  end.

(** [v > bound] for a numeric literal [bound]: [undefined] converts to
    [NaN] (every comparison false), [null] to [0]. *)
Definition gt (v : JsVal) (bound : Q) : bool :=
  match v with
  | JUndefined => false
  | JNull => negb (Qle_bool 0 bound)
  | JNum q => negb (Qle_bool q bound)
  end.

(** [x < y] on numbers. *)
Definition lt (x y : Q) : bool := negb (Qle_bool y x).

(** [Math.round]: the nearest integer, halves rounded up. *)
Definition round (q : Q) : Z := Qfloor (q + (1 # 2)).

(** [a || b] on strings that may be absent: the first truthy operand. *)
Definition or_else (a : option string) (b : string) : string :=
  match a with
  | Some s => if String.eqb s EmptyString then b else s
  | None => b
  end.

(** Truthiness of an optional non-zero number (a watch id). *)
Definition truthy_id (o : option Z) : bool :=
  match o with
  | Some w => negb (w =? 0)
  | None => false
  end.

(** Truthiness of an optional string (a session id). *)
Definition truthy_str (o : option string) : bool :=
  match o with
  | Some s => negb (String.eqb s EmptyString)
  | None => false
  end.

End Js.

(** ** Geolocation: positions, errors and the multi-attempt acquisition *)

Module Geo.

Record Coords : Type := {
  latitude : Q;
  longitude : Q;
  accuracy : Q
}.

Record Position : Type := {
  coords : Coords;
  timestamp : Z
}.

(** [GeolocationPositionError]: [code] 1 is PERMISSION_DENIED, 2 is
    POSITION_UNAVAILABLE, 3 is TIMEOUT. *)
Record PositionError : Type := {
  code : Z;
  message : string
}.

Definition PERMISSION_DENIED : Z := 1.
Definition POSITION_UNAVAILABLE : Z := 2.
Definition TIMEOUT : Z := 3.

(** What the platform answers to one [getCurrentPosition] request. *)
Inductive GeoOutcome : Type :=
| GeoSuccess (position : Position)
| GeoFailure (error : PositionError).

(** How the promise of an acquisition ends; [Pending] when the platform
    never answers the request in flight. *)
Inductive Settled : Type :=
| Resolved (position : Position)
| Rejected (error : PositionError)
| Pending.

(** The settled promise together with the number of
    [getCurrentPosition] requests issued and of 2s [setTimeout] delays
    scheduled. *)
Record UltraRun : Type := {
  outcome : Settled;
  requests : nat;
  delays : nat
}.

Definition maxAttempts : nat := 3.

(** [bestPosition || position]. *)
Definition best_or (bestPosition : option Position) (position : Position)
  : Position :=
  match bestPosition with
  | Some best => best
  | None => position
  end.

(** "Store best position so far": the assignment guarded by
    [!bestPosition || position.coords.accuracy < bestPosition.coords.accuracy]. *)
Definition keep_best (bestPosition : option Position) (position : Position)
  : option Position :=
  match bestPosition with
  | None => Some position
  | Some best =>
      if Js.lt (accuracy (coords position)) (accuracy (coords best))
      then Some position
      else Some best
  end.

(** [tryGetLocation], the closure of [getCurrentLocationUltraAccuracy]:
    [bestPosition] and [attempts] are its captured variables, [script]
    the platform's answers to the successive requests. *)
Fixpoint tryGetLocation (script : list GeoOutcome)
    (bestPosition : option Position) (attempts : nat)
    (requests delays : nat) : UltraRun :=
  let requests := S requests in
  match script with
  | [] => {| outcome := Pending; requests := requests; delays := delays |}
  | GeoSuccess position :: script' =>
      let attempts := S attempts in
      if Qle_bool (accuracy (coords position)) 20
         || (maxAttempts <=? attempts)%nat
      then {| outcome := Resolved (best_or bestPosition position);
              requests := requests; delays := delays |}
      else
        let bestPosition := keep_best bestPosition position in
        tryGetLocation script' bestPosition attempts requests (S delays)
  | GeoFailure error :: _ =>
      match bestPosition with
      | Some best =>
          {| outcome := Resolved best; requests := requests; delays := delays |}
      | None =>
          {| outcome := Rejected error; requests := requests; delays := delays |}
      end
  end.

Definition getCurrentLocationUltraAccuracy (script : list GeoOutcome)
  : UltraRun :=
  tryGetLocation script None 0 0 0.

End Geo.

(** ** The tracking controller: class [LocationTracker] *)

Module Tracker.
Import Js Geo.

(** An entry of [locationHistory]. *)
Record HistoryEntry : Type := {
  h_lat : Q;
  h_lng : Q;
  h_accuracy : Q;
  h_timestamp : Z
}.

(** The fields set by the constructor ([updateInterval] is never read). *)
Record LocationTracker : Type := {
  watchId : option Z;
  isTracking : bool;
  sessionId : option string;
  lastUpdate : option Z;
  locationHistory : list HistoryEntry
}.

Definition constructor : LocationTracker :=
  {| watchId := None; isTracking := false; sessionId := None;
     lastUpdate := None; locationHistory := [] |}.

(** The JSON body the three endpoints answer with
    ([session_id] only from session-start). *)
Record ApiResponse : Type := {
  success : bool;
  session_id : option string;
  error : option string
}.

(** A [fetch] followed by [response.json()]: a parsed body, or a
    rejection (network failure, unparsable body) with its message. *)
Inductive Fetched : Type :=
| Json (body : ApiResponse)
| FetchFails (reason : string).

(** Values the code throws or rejects with; [catch] reads [.message]. *)
Inductive Thrown : Type :=
| ThrownPosition (e : PositionError)
| ThrownError (msg : string).

Definition message_of (e : Thrown) : string :=
  match e with
  | ThrownPosition e => message e
  | ThrownError msg => msg
  end.

(** Observable effects, in the order they happen. *)
Inductive Effect : Type :=
| ShowSuccess (msg : string)
| ShowError (msg : string)
| UpdateTrackingUI (tracking : bool)
| UpdateLocationDisplay (position : Position)
| PostStartTracking
| PostStopTracking (session : option string)
| PostLocationUpdate (position : Position) (session : option string).

(** The tracker object, the watch subscriptions the platform holds, and
    the effects so far. *)
Record World : Type := {
  this : LocationTracker;
  watches : list Z;
  effects : list Effect
}.

Definition boot : World :=
  {| this := constructor; watches := []; effects := [] |}.

(** *** A state monad with exceptions and suspension *)

Inductive Completion (A : Type) : Type :=
| Normal (a : A)
| Throw (e : Thrown)
| Suspended.
Arguments Normal {A} a.
Arguments Throw {A} e.
Arguments Suspended {A}.

Definition M (A : Type) : Type := World -> Completion A * World.

Definition ret {A} (a : A) : M A := fun w => (Normal a, w).

Definition bind {A B} (m : M A) (k : A -> M B) : M B :=
  fun w =>
    match m w with
    | (Normal a, w') => k a w'
    | (Throw e, w') => (Throw e, w')
    | (Suspended, w') => (Suspended, w')
    end.

Definition throw {A} (e : Thrown) : M A := fun w => (Throw e, w).

Definition suspend {A} : M A := fun w => (Suspended, w).

(** [try { body } catch (error) { handler }]. *)
Definition try_catch (body : M unit) (handler : Thrown -> M unit) : M unit :=
  fun w =>
    match body w with
    | (Throw e, w') => handler e w'
    | r => r
    end.

Definition get : M World := fun w => (Normal w, w).

Definition modify (f : LocationTracker -> LocationTracker) : M unit :=
  fun w => (Normal tt,
            {| this := f (this w); watches := watches w; effects := effects w |}).

Definition emit (e : Effect) : M unit :=
  fun w => (Normal tt,
            {| this := this w; watches := watches w;
               effects := effects w ++ [e] |}).

Definition exec {A} (m : M A) (w : World) : World := snd (m w).

Notation "x <~ c ; k" := (bind c (fun x => k))
  (at level 20, c at level 100, k at level 200, only parsing).
Notation "c ;> k" := (bind c (fun _ => k))
  (at level 100, k at level 200, right associativity, only parsing).

Definition when (b : bool) (m : M unit) : M unit :=
  if b then m else ret tt.

(** *** Field assignments *)

Definition set_watchId (v : option Z) (t : LocationTracker) :=
  {| watchId := v; isTracking := isTracking t; sessionId := sessionId t;
     lastUpdate := lastUpdate t; locationHistory := locationHistory t |}.
Definition set_isTracking (v : bool) (t : LocationTracker) :=
  {| watchId := watchId t; isTracking := v; sessionId := sessionId t;
     lastUpdate := lastUpdate t; locationHistory := locationHistory t |}.
Definition set_sessionId (v : option string) (t : LocationTracker) :=
  {| watchId := watchId t; isTracking := isTracking t; sessionId := v;
     lastUpdate := lastUpdate t; locationHistory := locationHistory t |}.
Definition set_lastUpdate (v : option Z) (t : LocationTracker) :=
  {| watchId := watchId t; isTracking := isTracking t; sessionId := sessionId t;
     lastUpdate := v; locationHistory := locationHistory t |}.
Definition set_locationHistory (v : list HistoryEntry) (t : LocationTracker) :=
  {| watchId := watchId t; isTracking := isTracking t; sessionId := sessionId t;
     lastUpdate := lastUpdate t; locationHistory := v |}.

(** *** Platform and network *)

(** [navigator.geolocation.watchPosition]: the platform registers a
    subscription and returns its id. *)
Definition watchPosition (id : Z) : M Z :=
  fun w => (Normal id,
            {| this := this w; watches := watches w ++ [id];
               effects := effects w |}).

(** [navigator.geolocation.clearWatch]. *)
Definition clearWatch (id : Z) : M unit :=
  fun w => (Normal tt,
            {| this := this w;
               watches := filter (fun x => x <> id) (watches w);
               effects := effects w |}).

(** [await] on the promise of an acquisition. *)
Definition await_position (r : UltraRun) : M Position :=
  match outcome r with
  | Resolved p => ret p
  | Rejected e => throw (ThrownPosition e)
  | Pending => suspend
  end.

Definition await_fetch (answer : Fetched) : M ApiResponse :=
  match answer with
  | Json body => ret body
  | FetchFails reason => throw (ThrownError reason)
  end.

Definition startTrackingSession (answer : Fetched) : M ApiResponse :=
  emit PostStartTracking ;>
  await_fetch answer.

Definition stopTrackingSession (answer : Fetched) : M ApiResponse :=
  w <~ get ;
  emit (PostStopTracking (sessionId (this w))) ;>
  await_fetch answer.

Definition sendLocationUpdate (position : Position) (answer : Fetched)
  : M ApiResponse :=
  w <~ get ;
  emit (PostLocationUpdate position (sessionId (this w))) ;>
  result <~ await_fetch answer ;
  if negb (success result)
  then throw (ThrownError (or_else (error result) "Failed to update location"))
  else ret result.

Definition updateTrackingUI : M unit :=
  w <~ get ;
  emit (UpdateTrackingUI (isTracking (this w))).

Definition showSuccess (msg : string) : M unit := emit (ShowSuccess msg).
Definition showError (msg : string) : M unit := emit (ShowError msg).

(** *** Methods *)

(** What the environment answers during one [startTracking]: the platform's
    answers to the acquisition's requests, the session-start body, the id
    of the new watch, the body answered to the initial report. *)
Record StartEnv : Type := {
  geoScript : list GeoOutcome;
  sessionAnswer : Fetched;
  newWatchId : Z;
  reportAnswer : Fetched
}.

Definition startTracking (env : StartEnv) : M unit :=
  try_catch
    (position <~ await_position (getCurrentLocationUltraAccuracy (geoScript env)) ;
     sessionResponse <~ startTrackingSession (sessionAnswer env) ;
     when (negb (success sessionResponse))
       (throw (ThrownError (or_else (error sessionResponse)
                                    "Failed to start tracking session"))) ;>
     modify (set_sessionId (session_id sessionResponse)) ;>
     modify (set_isTracking true) ;>
     id <~ watchPosition (newWatchId env) ;
     modify (set_watchId (Some id)) ;>
     sendLocationUpdate position (reportAnswer env) ;>
     updateTrackingUI ;>
     showSuccess "High-precision tracking started! 🎯")
    (fun error =>
       showError ("Failed to start tracking: " +:+ message_of error) ;>
       modify (set_isTracking false)).

(** [this.locationHistory.slice(-10)]. *)
Definition slice_last (n : nat) (l : list HistoryEntry) : list HistoryEntry :=
  drop (length l - n) l.

Definition onLocationUpdate (position : Position) (now : Z)
    (reportAnswer : Fetched) : M unit :=
  w <~ get ;
  if negb (isTracking (this w)) then ret tt
  else
    let entry :=
      {| h_lat := latitude (coords position);
         h_lng := longitude (coords position);
         h_accuracy := accuracy (coords position);
         h_timestamp := timestamp position |} in
    modify (fun t => set_locationHistory (locationHistory t ++ [entry]) t) ;>
    w <~ get ;
    when (10 <? length (locationHistory (this w)))%nat
      (modify (fun t =>
         set_locationHistory (slice_last 10 (locationHistory t)) t)) ;>
    try_catch
      (sendLocationUpdate position reportAnswer ;>
       emit (UpdateLocationDisplay position) ;>
       modify (set_lastUpdate (Some now)))
      (fun _ => ret tt).

Definition stopTracking (stopAnswer : Fetched) : M unit :=
  try_catch
    (w <~ get ;
     match watchId (this w) with
     | Some id =>
         when (truthy_id (Some id))
           (clearWatch id ;> modify (set_watchId None))
     | None => ret tt
     end ;>
     w <~ get ;
     when (truthy_str (sessionId (this w)))
       (stopTrackingSession stopAnswer ;> ret tt) ;>
     modify (set_isTracking false) ;>
     modify (set_sessionId None) ;>
     modify (set_lastUpdate None) ;>
     updateTrackingUI ;>
     showSuccess "Location tracking stopped 🛑")
    (fun error =>
       showError ("Error stopping tracking: " +:+ message_of error)).

Definition onLocationError (error : PositionError) : M unit :=
  if code error =? 3 then ret tt
  else
    texts <~ match code error with
             | 1 =>
                 modify (set_isTracking false) ;>
                 ret ("Location permission denied.",
                      " Please enable location access in your browser settings.")
             | 2 =>
                 ret ("Location unavailable.",
                      " Check GPS signal and internet connection.")
             | _ => ret ("Unknown location error", EmptyString)
             end ;
    showError (fst texts +:+ snd texts) ;>
    when (code error =? 1) updateTrackingUI.

(** *** The controller's states

    The code keeps no state variable; the two resting states are read off
    the fields. [Idle] is what the constructor builds and what a completed
    [stopTracking] leaves: not tracking, no watch id, no session id, and no
    subscription held by the platform. [Active] is what a completed
    [startTracking] leaves: tracking, a session id, and a watch id that
    the platform holds. *)

Definition Idle (w : World) : Prop :=
  isTracking (this w) = false /\ watchId (this w) = None
  /\ sessionId (this w) = None /\ watches w = [].

Definition Active (w : World) : Prop :=
  isTracking (this w) = true
  /\ (exists id, watchId (this w) = Some id /\ id <> 0 /\ watches w = [id])
  /\ (exists s, sessionId (this w) = Some s /\ s <> EmptyString).

End Tracker.

(** ** Alerts and route trails: class [EnhancedTrackingFeatures] *)

(** One entry of the dashboard feed. *)
Module Auditor.
Record t : Type := {
  id : string;
  username : string;
  status_class : string;
  accuracy : Js.JsVal;
  lat : Js.JsVal;
  lng : Js.JsVal;
  last_update : string
}.
End Auditor.

Module Alert.
Record t : Type := {
  id : string;
  type : string;
  title : string;
  message : string;
  timestamp : Z
}.
End Alert.

(** An element of a [previousPositions] array. *)
Module TrailPos.
Record t : Type := {
  lat : Js.JsVal;
  lng : Js.JsVal;
  timestamp : string
}.
End TrailPos.

Module Features.
Import Js.

(** The [path] of a [google.maps.Polyline]; the styling options are
    constants. *)
Definition Path : Type := list (JsVal * JsVal).

(** [alerts], [routes] and [previousPositions] are the object's fields;
    [drawn] records, in order, every polyline created and put on the map. *)
Record t : Type := {
  alerts : list Alert.t;
  routes : gmap string Path;
  previousPositions : gmap string (list TrailPos.t);
  drawn : list (string * Path)
}.

Definition constructor : t :=
  {| alerts := []; routes := ∅; previousPositions := ∅; drawn := [] |}.

Definition set_alerts (v : list Alert.t) (f : t) : t :=
  {| alerts := v; routes := routes f;
     previousPositions := previousPositions f; drawn := drawn f |}.

(** *** Alerts *)

Definition hasAlert (alertId : string) (f : t) : bool :=
  existsb (fun alert => String.eqb (Alert.id alert) alertId) (alerts f).

Definition addAlert (alert : Alert.t) (f : t) : t :=
  set_alerts (alerts f ++ [alert]) f.

Definition removeAlert (alertId : string) (f : t) : t :=
  set_alerts (filter (fun alert => Alert.id alert <> alertId) (alerts f)) f.

(** The two alert kinds and the template strings that build their ids. *)
Inductive Kind : Type := Offline | LowAccuracy.

Definition alertId (k : Kind) (auditorId : string) : string :=
  match k with
  | Offline => "offline_" +:+ auditorId
  | LowAccuracy => "accuracy_" +:+ auditorId
  end.

(** [Math.round(v)] printed in a template string. Values of 1e21 and
    above, which JavaScript prints in exponent form, are outside the model:
    all digits are printed here. *)
Definition round_str (v : JsVal) : string :=
  match v with
  | JNum q => pretty (round q)
  | JNull => "0"
  | JUndefined => "NaN"
  end.

(** The body of the [forEach] in [checkForAlerts]. *)
Definition checkAuditor (now : Z) (auditor : Auditor.t) (f : t) : t :=
  let f :=
    if String.eqb (Auditor.status_class auditor) "offline"
       && negb (hasAlert (alertId Offline (Auditor.id auditor)) f)
    then addAlert
           {| Alert.id := alertId Offline (Auditor.id auditor);
              Alert.type := "warning";
              Alert.title := "Auditor Offline";
              Alert.message :=
                Auditor.username auditor
                +:+ " has been offline for over 15 minutes";
              Alert.timestamp := now |} f
    else f in
  let f :=
    if gt (Auditor.accuracy auditor) 500
       && negb (hasAlert (alertId LowAccuracy (Auditor.id auditor)) f)
    then addAlert
           {| Alert.id := alertId LowAccuracy (Auditor.id auditor);
              Alert.type := "warning";
              Alert.title := "Low Location Accuracy";
              Alert.message :=
                Auditor.username auditor +:+ " has low GPS accuracy (±"
                +:+ round_str (Auditor.accuracy auditor) +:+ "m)";
              Alert.timestamp := now |} f
    else f in
  if String.eqb (Auditor.status_class auditor) "online"
  then removeAlert (alertId LowAccuracy (Auditor.id auditor))
         (removeAlert (alertId Offline (Auditor.id auditor)) f)
  else f.

Definition checkForAlerts (now : Z) (auditors : list Auditor.t) (f : t) : t :=
  foldl (fun f auditor => checkAuditor now auditor f) f auditors.

(** A sequence of [checkForAlerts] calls, each with its clock reading and
    its snapshot, on a freshly constructed object. *)
Definition evaluate_all (calls : list (Z * list Auditor.t)) : t :=
  foldl (fun f call => checkForAlerts (fst call) (snd call) f)
        constructor calls.

(** *** Route trails *)

(** With fewer than two positions [drawTrail] returns at once. Otherwise
    the polyline held in [routes] for the auditor, if any, is taken off the
    map ([setMap(null)]) and a new one over all the positions takes its
    place. *)
Definition drawTrail (auditorId : string) (positions : list TrailPos.t)
    (f : t) : t :=
  if (length positions <? 2)%nat then f
  else
    let trail : Path :=
      map (fun pos => (TrailPos.lat pos, TrailPos.lng pos)) positions in
    {| alerts := alerts f;
       routes := <[auditorId := trail]> (routes f);
       previousPositions := previousPositions f;
       drawn := drawn f ++ [(auditorId, trail)] |}.

Definition set_previousPositions (v : gmap string (list TrailPos.t)) (f : t)
  : t :=
  {| alerts := alerts f; routes := routes f;
     previousPositions := v; drawn := drawn f |}.

(** The body of the [forEach] in [updateRouteTrails]. The two objects
    used as maps are modelled with their own properties only: an auditor id
    that names a member of [Object.prototype] (such as [constructor]) is
    outside the model. There the code finds the inherited member instead of
    creating an array, throws at [push] before storing or drawing anything,
    and leaves the [forEach]. *)
Definition updateAuditor (auditor : Auditor.t) (f : t) : t :=
  if truthy (Auditor.lat auditor) && truthy (Auditor.lng auditor)
  then
    let auditorId := Auditor.id auditor in
    let f :=
      match previousPositions f !! auditorId with
      | Some _ => f
      | None =>
          set_previousPositions (<[auditorId := []]> (previousPositions f)) f
      end in
    let newPosition :=
      {| TrailPos.lat := Auditor.lat auditor;
         TrailPos.lng := Auditor.lng auditor;
         TrailPos.timestamp := Auditor.last_update auditor |} in
    let positions := default [] (previousPositions f !! auditorId) in
    let lastPosition := last positions in
    if match lastPosition with
       | None => true
       | Some lastPosition =>
           strict_neq (TrailPos.lat lastPosition) (TrailPos.lat newPosition)
           || strict_neq (TrailPos.lng lastPosition) (TrailPos.lng newPosition)
       end
    then
      let positions := positions ++ [newPosition] in
      let positions :=
        if (20 <? length positions)%nat then tail positions else positions in
      drawTrail auditorId positions
        (set_previousPositions
           (<[auditorId := positions]> (previousPositions f)) f)
    else f
  else f.

Definition updateRouteTrails (auditors : list Auditor.t) (f : t) : t :=
  foldl (fun f auditor => updateAuditor auditor f) f auditors.

End Features.

(** ** Vocabulary of the statements, and scripted scenarios *)

Module Scenario.
Import Js Geo Tracker.

(** A fix in Bengaluru with the given accuracy radius. *)
Definition sample (acc : Q) : Position :=
  {| coords := {| latitude := 12.9716; longitude := 77.5946;
                  accuracy := acc |};
     timestamp := 1700000000000 |}.

Definition timeout_error : PositionError :=
  {| code := TIMEOUT; message := "Timeout expired" |}.

(** A sample that does not end the acquisition on its own merits. *)
Definition coarse (p : Position) : Prop :=
  Qle_bool (accuracy (coords p)) 20 = false.

(** The value of [bestPosition] after the samples [ps] were retained. *)
Definition retained (ps : list Position) : option Position :=
  foldl keep_best None ps.

(** An alert is keyed by a kind and an auditor when its id is the
    template string of that pair. *)
Definition keyed (k : Features.Kind) (auditorId : string) (a : Alert.t)
  : Prop :=
  Alert.id a = Features.alertId k auditorId.

#[global] Instance keyed_dec k auditorId a : Decision (keyed k auditorId a).
Proof. unfold keyed. apply _. Defined.

(** An alert that carries the id, and the title, of one kind for one
    auditor. *)
Definition well_keyed (a : Alert.t) : Prop :=
  exists e,
    (keyed Features.Offline e a /\ Alert.title a = "Auditor Offline")
    \/ (keyed Features.LowAccuracy e a
        /\ Alert.title a = "Low Location Accuracy").

(** The point [updateRouteTrails] builds from a feed entry. *)
Definition point_of (auditor : Auditor.t) : TrailPos.t :=
  {| TrailPos.lat := Auditor.lat auditor;
     TrailPos.lng := Auditor.lng auditor;
     TrailPos.timestamp := Auditor.last_update auditor |}.

(** [push] followed by the guarded [shift]. *)
Definition pushed (positions : list TrailPos.t) (auditor : Auditor.t)
  : list TrailPos.t :=
  if (20 <? length (positions ++ [point_of auditor]))%nat
  then tail (positions ++ [point_of auditor])
  else positions ++ [point_of auditor].

(** The vertices of the polyline drawn for a stored trail. *)
Definition path_of (positions : list TrailPos.t) : Features.Path :=
  map (fun pos => (TrailPos.lat pos, TrailPos.lng pos)) positions.

(** Every polyline on the map belongs to a stored trail of at least two
    points and shows exactly that trail. *)
Definition routes_follow_trails (f : Features.t) : Prop :=
  forall auditorId path,
    Features.routes f !! auditorId = Some path ->
    exists positions,
      Features.previousPositions f !! auditorId = Some positions
      /\ path = path_of positions
      /\ (2 <= length positions)%nat.

(** A sequence of [updateRouteTrails] calls on a freshly constructed
    object. *)
Definition update_all (snapshots : list (list Auditor.t)) : Features.t :=
  foldl (fun f auditors => Features.updateRouteTrails auditors f)
        Features.constructor snapshots.

(** A coordinate that is the number zero. *)
Definition is_zero (v : JsVal) : Prop :=
  match v with
  | JNum q => (q == 0)%Q
  | _ => False
  end.

(** A coordinate that is present in the feed entry: a number. *)
Definition present (v : JsVal) : Prop :=
  match v with
  | JNum _ => True
  | _ => False
  end.

(** Every polyline has at least two vertices. *)
Definition drawable (path : Features.Path) : Prop := (2 <= length path)%nat.

(** An auditor on the equator. *)
Definition equator_auditor : Auditor.t :=
  {| Auditor.id := "7"; Auditor.username := "asha";
     Auditor.status_class := "online"; Auditor.accuracy := JNum 12;
     Auditor.lat := JNum 0; Auditor.lng := JNum 77.5946;
     Auditor.last_update := "2024-01-01T10:00:00" |}.

(** An auditor in Kochi, and the trail object after its first report. *)
Definition kochi_auditor : Auditor.t :=
  {| Auditor.id := "9"; Auditor.username := "ravi";
     Auditor.status_class := "online"; Auditor.accuracy := JNum 30;
     Auditor.lat := JNum 9.9312; Auditor.lng := JNum 76.2673;
     Auditor.last_update := "2024-01-01T10:00:00" |}.

Definition kochi_point : TrailPos.t :=
  {| TrailPos.lat := JNum 9.9312; TrailPos.lng := JNum 76.2673;
     TrailPos.timestamp := "2024-01-01T10:00:00" |}.

Definition kochi_trail : Features.t :=
  Features.updateRouteTrails [kochi_auditor] Features.constructor.

(** *** Scripted environments of the controller *)

Definition accepted : ApiResponse :=
  {| success := true; session_id := Some "s1"; error := None |}.

Definition done_ok : ApiResponse :=
  {| success := true; session_id := None; error := None |}.

Definition refused (reason : string) : ApiResponse :=
  {| success := false; session_id := None; error := Some reason |}.

Definition denied_error : PositionError :=
  {| code := PERMISSION_DENIED; message := "User denied Geolocation" |}.

(** Everything succeeds: one accurate fix, session accepted, watch 1
    registered, initial report stored. *)
Definition smooth_start : StartEnv :=
  {| geoScript := [GeoSuccess (sample 15)];
     sessionAnswer := Json accepted;
     newWatchId := 1;
     reportAnswer := Json done_ok |}.

(** The session endpoint declines. *)
Definition refused_start : StartEnv :=
  {| geoScript := [GeoSuccess (sample 15)];
     sessionAnswer := Json (refused "No active route");
     newWatchId := 1;
     reportAnswer := Json done_ok |}.

(** The session is accepted, the initial report is not. *)
Definition unreported_start : StartEnv :=
  {| geoScript := [GeoSuccess (sample 15)];
     sessionAnswer := Json accepted;
     newWatchId := 1;
     reportAnswer := Json (refused "Database unavailable") |}.

(** The controller after a successful start. *)
Definition active_world : World := exec (startTracking smooth_start) boot.

(** The same after one delivered and reported watch update. *)
Definition tracked_world : World :=
  exec (onLocationUpdate (sample 12) 1700000030000 (Json done_ok))
       active_world.

End Scenario.

(** ** Display helpers and the test buttons of [LocationTracker] *)

Module Display.
Import Js Geo.

(** The [if]/[else if] chain shared by [displayLocationResult] and
    [updateLocationDisplay]: the pair [(accuracyColor, accuracyText)]. *)
Definition accuracyQuality (accuracy : Q) : string * string :=
  if Js.lt 1000 accuracy then ("#dc3545", "Very Poor")
  else if Js.lt 500 accuracy then ("#fd7e14", "Poor")
  else if Js.lt 100 accuracy then ("#ffc107", "Fair")
  else if Js.lt 50 accuracy then ("#17a2b8", "Good")
  else ("#28a745", "Excellent").

(** What [displayLocationResult] writes into the test-result element
    (number formatting with [toFixed] and the locale time string are left
    to the renderer). *)
Record ResultView : Type := {
  source : string;
  shown_lat : Q;
  shown_lng : Q;
  shown_accuracy : Z;
  accuracyColor : string;
  accuracyText : string;
  shown_time : Z
}.

Definition displayLocationResult (position : Position) (source : string)
  : ResultView :=
  let accuracy := accuracy (coords position) in
  let quality := accuracyQuality accuracy in
  {| source := source;
     shown_lat := latitude (coords position);
     shown_lng := longitude (coords position);
     shown_accuracy := round accuracy;
     accuracyColor := fst quality;
     accuracyText := snd quality;
     shown_time := timestamp position |}.

(** What [updateLocationDisplay] writes into the location-display and
    tracking-stats elements. Here the quality is taken from the rounded
    accuracy, the location source from the raw one. *)
Record TrackingView : Type := {
  view_lat : Q;
  view_lng : Q;
  view_accuracy : Z;
  view_color : string;
  view_text : string;
  view_session : option string;
  view_updates : nat;
  view_source : string
}.

Definition updateLocationDisplay (this : Tracker.LocationTracker)
    (position : Position) : TrackingView :=
  let accuracy := round (accuracy (coords position)) in
  let quality := accuracyQuality (inject_Z accuracy) in
  {| view_lat := latitude (coords position);
     view_lng := longitude (coords position);
     view_accuracy := accuracy;
     view_color := fst quality;
     view_text := snd quality;
     view_session := Tracker.sessionId this;
     view_updates := length (Tracker.locationHistory this);
     view_source :=
       if Js.lt (Geo.accuracy (coords position)) 100
       then "GPS/Mixed" else "Network" |}.

Definition isLocationAccurate (position : Position) : bool :=
  Qle_bool (accuracy (coords position)) 50.

(** [displayLocationError]: the pair [(errorMsg, suggestions)] shown in the
    test-result element. *)
Definition displayLocationError (error : PositionError)
    (customMessage : option string) : string * string :=
  let errorMsg := or_else customMessage "Unknown error" in
  let suggestions := EmptyString in
  match code error with
  | 1 =>
      ("Location permission denied",
       "<br><small>💡 Please enable location access in your browser settings</small>")
  | 2 =>
      ("Location unavailable",
       "<br><small>💡 Check your internet connection and device location settings</small>")
  | 3 =>
      ("Location request timed out",
       "<br><small>💡 Try moving near a window or outdoors for better GPS signal</small>")
  | _ => (or_else (Some (message error)) "Failed to get location", suggestions)
  end.

(** A one-shot request, as [getCurrentLocationHighAccuracy],
    [getCurrentLocationNetwork] and [getCurrentPosition] wrap it: the promise
    settles with the platform's answer, and stays pending without one. The
    three differ only in the options they hand to the platform. *)
Definition single_request (answer : option GeoOutcome) : Settled :=
  match answer with
  | Some (GeoSuccess position) => Resolved position
  | Some (GeoFailure error) => Rejected error
  | None => Pending
  end.

Definition getCurrentLocationHighAccuracy := single_request.
Definition getCurrentLocationNetwork := single_request.

(** The test-result element. *)
Inductive TestResult : Type :=
| Untouched
| Searching (note : string)
| LocationFound (view : ResultView)
| LocationError (errorMsg suggestions : string).

Record Button : Type := {
  textContent : string;
  disabled : bool
}.

(** The two test buttons, the test-result element, and the number of
    position requests the test methods have issued. *)
Record TestPanel : Type := {
  testBtn : Button;
  networkBtn : Button;
  testResult : TestResult;
  positionRequests : nat
}.

Definition initial_panel : TestPanel :=
  {| testBtn := {| textContent := "📍 Test Current Location"; disabled := false |};
     networkBtn := {| textContent := "📶 Use Network Location"; disabled := false |};
     testResult := Untouched;
     positionRequests := 0 |}.

Definition set_testBtn (b : Button) (p : TestPanel) : TestPanel :=
  {| testBtn := b; networkBtn := networkBtn p; testResult := testResult p;
     positionRequests := positionRequests p |}.
Definition set_networkBtn (b : Button) (p : TestPanel) : TestPanel :=
  {| testBtn := testBtn p; networkBtn := b; testResult := testResult p;
     positionRequests := positionRequests p |}.
Definition set_testResult (r : TestResult) (p : TestPanel) : TestPanel :=
  {| testBtn := testBtn p; networkBtn := networkBtn p; testResult := r;
     positionRequests := positionRequests p |}.
Definition add_requests (n : nat) (p : TestPanel) : TestPanel :=
  {| testBtn := testBtn p; networkBtn := networkBtn p;
     testResult := testResult p;
     positionRequests := (positionRequests p + n)%nat |}.

(** [testCurrentLocation]: the multi-attempt acquisition, then on its
    rejection one high-accuracy request; the [finally] block restores the
    button once the method completes. *)
Definition testCurrentLocation (ultraScript : list GeoOutcome)
    (fallbackAnswer : option GeoOutcome) (panel : TestPanel) : TestPanel :=
  let restore :=
    set_testBtn {| textContent := "📍 Test Current Location";
                   disabled := false |} in
  let panel :=
    set_testBtn {| textContent := "Getting precise location...";
                   disabled := true |} panel in
  let panel :=
    set_testResult
      (Searching "🎯 Getting most accurate location possible (may take 60+ seconds)...")
      panel in
  let run := getCurrentLocationUltraAccuracy ultraScript in
  let panel := add_requests (requests run) panel in
  match outcome run with
  | Resolved position =>
      restore (set_testResult
                 (LocationFound
                    (displayLocationResult position "High-Precision GPS"))
                 panel)
  | Rejected error =>
      let panel := add_requests 1 panel in
      match getCurrentLocationHighAccuracy fallbackAnswer with
      | Resolved position =>
          restore (set_testResult
                     (LocationFound (displayLocationResult position "GPS"))
                     panel)
      | Rejected fallbackError =>
          let shown :=
            displayLocationError fallbackError
              (Some "All location methods failed.") in
          restore (set_testResult (LocationError (fst shown) (snd shown)) panel)
      | Pending => panel
      end
  | Pending => panel
  end.

(** [testNetworkLocation]: one network request, no fallback. *)
Definition testNetworkLocation (answer : option GeoOutcome)
    (panel : TestPanel) : TestPanel :=
  let restore :=
    set_networkBtn {| textContent := "📶 Use Network Location";
                      disabled := false |} in
  let panel :=
    set_networkBtn {| textContent := "Getting network location...";
                      disabled := true |} panel in
  let panel :=
    set_testResult
      (Searching "📶 Using network-based location (faster but less accurate)...")
      panel in
  let panel := add_requests 1 panel in
  match getCurrentLocationNetwork answer with
  | Resolved position =>
      restore (set_testResult
                 (LocationFound (displayLocationResult position "Network"))
                 panel)
  | Rejected error =>
      let shown :=
        displayLocationError error (Some "Network location also failed.") in
      restore (set_testResult (LocationError (fst shown) (snd shown)) panel)
  | Pending => panel
  end.

End Display.

(** ** The statistics panel: [updateAnalytics] *)

Module Analytics.
Import Js.

(** The numbers [updateAnalytics] puts into the analytics panel. *)
Record t : Type := {
  total : nat;
  online : nat;
  recent : nat;
  stale : nat;
  offline : nat;
  avgAccuracy : Q;
  shownAccuracy : Z
}.

(** [auditors.filter(a => a.status_class === status).length]. *)
Definition count_status (status : string) (auditors : list Auditor.t) : nat :=
  length (filter (fun a => Auditor.status_class a = status) auditors).

(** The numeric value of an accuracy that passed [filter(a => a.accuracy)]. *)
Definition number_of (v : JsVal) : Q :=
  match v with
  | JNum q => q
  | _ => 0
  end.

(** The four counts are exact. The average is computed here in exact
    rationals, where the code divides and sums doubles: [avgAccuracy] and
    [shownAccuracy] can differ from the figure the page shows when the exact
    mean lies on a rounding boundary. *)
Definition updateAnalytics (auditors : list Auditor.t) : t :=
  let arr := filter (fun a => truthy (Auditor.accuracy a) = true) auditors in
  let avgAccuracy :=
    foldl (fun sum a =>
             (sum + number_of (Auditor.accuracy a) / inject_Z (Z.of_nat (length arr)))%Q)
          0%Q arr in
  {| total := length auditors;
     online := count_status "online" auditors;
     recent := count_status "recent" auditors;
     stale := count_status "stale" auditors;
     offline := count_status "offline" auditors;
     avgAccuracy := avgAccuracy;
     shownAccuracy :=
       round (if Qeq_bool avgAccuracy 0 then 0%Q else avgAccuracy) |}.

End Analytics.

(** ** The alerts panel: the DOM side of the alert methods *)

Module AlertsPanel.
Import Js.

(** The elements the alert methods write: the toggle button (its
    [style.display] and [textContent]) and the alerts list, whose
    [innerHTML] is one rendered block per alert, kept here as the alerts
    rendered. The pulse animation of the button is left out. *)
Record Dom : Type := {
  toggleDisplay : string;
  toggleText : string;
  listed : list Alert.t
}.

(** The panel as [addAlertSystem] inserts it (the button's text without
    the surrounding white space of the markup). *)
Definition addAlertSystem : Dom :=
  {| toggleDisplay := "none"; toggleText := "🚨"; listed := [] |}.

(** The object and the page. *)
Definition State : Type := Features.t * Dom.

Definition boot : State := (Features.constructor, addAlertSystem).

Definition set_toggleDisplay (v : string) (d : Dom) : Dom :=
  {| toggleDisplay := v; toggleText := toggleText d; listed := listed d |}.

Definition addAlert (alert : Alert.t) (s : State) : State :=
  (Features.addAlert alert (fst s), set_toggleDisplay "block" (snd s)).

Definition updateAlertsDisplay (s : State) : State :=
  let alerts := Features.alerts (fst s) in
  if (length alerts =? 0)%nat
  then (fst s, set_toggleDisplay "none" (snd s))
  else
    (fst s,
     {| toggleDisplay := toggleDisplay (snd s);
        toggleText :=
          if (9 <? length alerts)%nat then "9+" else pretty (length alerts);
        listed := alerts |}).

Definition removeAlert (alertId : string) (s : State) : State :=
  updateAlertsDisplay (Features.removeAlert alertId (fst s), snd s).

(** The body of the [forEach] in [checkForAlerts], with its DOM writes. *)
Definition checkAuditor (now : Z) (auditor : Auditor.t) (s : State) : State :=
  let s :=
    if String.eqb (Auditor.status_class auditor) "offline"
       && negb (Features.hasAlert
                  (Features.alertId Features.Offline (Auditor.id auditor))
                  (fst s))
    then addAlert
           {| Alert.id := Features.alertId Features.Offline (Auditor.id auditor);
              Alert.type := "warning";
              Alert.title := "Auditor Offline";
              Alert.message :=
                Auditor.username auditor
                +:+ " has been offline for over 15 minutes";
              Alert.timestamp := now |} s
    else s in
  let s :=
    if gt (Auditor.accuracy auditor) 500
       && negb (Features.hasAlert
                  (Features.alertId Features.LowAccuracy (Auditor.id auditor))
                  (fst s))
    then addAlert
           {| Alert.id :=
                Features.alertId Features.LowAccuracy (Auditor.id auditor);
              Alert.type := "warning";
              Alert.title := "Low Location Accuracy";
              Alert.message :=
                Auditor.username auditor +:+ " has low GPS accuracy (±"
                +:+ Features.round_str (Auditor.accuracy auditor) +:+ "m)";
              Alert.timestamp := now |} s
    else s in
  if String.eqb (Auditor.status_class auditor) "online"
  then removeAlert (Features.alertId Features.LowAccuracy (Auditor.id auditor))
         (removeAlert (Features.alertId Features.Offline (Auditor.id auditor))
                      s)
  else s.

Definition checkForAlerts (now : Z) (auditors : list Auditor.t) (s : State)
  : State :=
  updateAlertsDisplay
    (foldl (fun s auditor => checkAuditor now auditor s) s auditors).

(** What happens to the panel: a feed evaluation, or a click on the
    dismiss button of one alert. *)
Inductive Event : Type :=
| Evaluate (now : Z) (auditors : list Auditor.t)
| Dismiss (alertId : string).

Definition handle (s : State) (e : Event) : State :=
  match e with
  | Evaluate now auditors => checkForAlerts now auditors s
  | Dismiss alertId => removeAlert alertId s
  end.

Definition run (events : list Event) : State := foldl handle boot events.

(** The toggle button is shown exactly when there are alerts. *)
Definition toggle_tracks_alerts (s : State) : Prop :=
  toggleDisplay (snd s) = "block" /\ Features.alerts (fst s) <> []
  \/ toggleDisplay (snd s) = "none" /\ Features.alerts (fst s) = [].

(** The badge and the list show the current alerts. *)
Definition panel_in_sync (s : State) : Prop :=
  Features.alerts (fst s) <> [] ->
  listed (snd s) = Features.alerts (fst s)
  /\ toggleText (snd s)
     = if (9 <? length (Features.alerts (fst s)))%nat then "9+"
       else pretty (length (Features.alerts (fst s))).

End AlertsPanel.

(** ** Vocabulary for the further properties *)

Module Terms.
Import Js Geo Tracker.

(** A computation keeps an observation of the world when every run of it,
    however it completes, leaves that observation as it found it. *)
Definition keeps {A X : Type} (observe : World -> X) (m : M A) : Prop :=
  forall w, observe (snd (m w)) = observe w.

(** The location history of the tracker. *)
Definition history (w : World) : list HistoryEntry :=
  locationHistory (this w).

(** What decides whether the controller is tracking: the three control
    fields and the subscriptions the platform holds. *)
Definition control (w : World) : option Z * bool * option string * list Z :=
  (watchId (this w), isTracking (this w), sessionId (this w), watches w).

(** A session-start body that accepts the session under a usable id. *)
Definition accepts (body : ApiResponse) (s : string) : Prop :=
  success body = true /\ session_id body = Some s /\ s <> EmptyString.

(** A report answer that the collector stored. *)
Definition stored (answer : Fetched) : bool :=
  match answer with
  | Json body => success body
  | FetchFails _ => false
  end.

(** The history entry [onLocationUpdate] builds from a position. *)
Definition entry_of (position : Position) : HistoryEntry :=
  {| h_lat := latitude (coords position);
     h_lng := longitude (coords position);
     h_accuracy := accuracy (coords position);
     h_timestamp := timestamp position |}.

(** The history after one more entry: appended, then cut to the last ten. *)
Definition appended (h : list HistoryEntry) (position : Position)
  : list HistoryEntry :=
  if (10 <? length (h ++ [entry_of position]))%nat
  then slice_last 10 (h ++ [entry_of position])
  else h ++ [entry_of position].

(** *** Display *)

(** The five quality labels, from best to worst. *)
Definition quality_rank (text : string) : nat :=
  if String.eqb text "Excellent" then 0
  else if String.eqb text "Good" then 1
  else if String.eqb text "Fair" then 2
  else if String.eqb text "Poor" then 3
  else 4.

(** The result area still shows a search note. *)
Definition searching (r : Display.TestResult) : Prop :=
  match r with
  | Display.Searching _ => True
  | _ => False
  end.

(** A status the statistics panel has a line for. *)
Definition known_status (a : Auditor.t) : Prop :=
  Auditor.status_class a = "online" \/ Auditor.status_class a = "recent"
  \/ Auditor.status_class a = "stale" \/ Auditor.status_class a = "offline".

(** *** Alerts *)

(** An alert id that belongs to the auditor: one of its two template ids. *)
Definition own (auditorId : string) (alertId : string) : Prop :=
  alertId = Features.alertId Features.Offline auditorId
  \/ alertId = Features.alertId Features.LowAccuracy auditorId.

(** The alert set agrees with the auditor's entry: an offline auditor has
    its offline alert, an auditor that is not online and reports an
    accuracy above 500 has its accuracy alert, an online auditor has
    neither. *)
Definition settled (a : Auditor.t) (f : Features.t) : Prop :=
  (Auditor.status_class a = "offline" ->
     Features.hasAlert (Features.alertId Features.Offline (Auditor.id a)) f
     = true)
  /\ (Auditor.status_class a <> "online" ->
      gt (Auditor.accuracy a) 500 = true ->
      Features.hasAlert
        (Features.alertId Features.LowAccuracy (Auditor.id a)) f = true)
  /\ (Auditor.status_class a = "online" ->
      Features.hasAlert (Features.alertId Features.Offline (Auditor.id a)) f
      = false
      /\ Features.hasAlert
           (Features.alertId Features.LowAccuracy (Auditor.id a)) f = false).

(** Three feed entries used to exercise the alert rules. *)
Definition offline_asha : Auditor.t :=
  {| Auditor.id := "7"; Auditor.username := "asha";
     Auditor.status_class := "offline"; Auditor.accuracy := JNum 800;
     Auditor.lat := JNum 9.9312; Auditor.lng := JNum 76.2673;
     Auditor.last_update := "2024-01-01T09:40:00" |}.

Definition online_asha : Auditor.t :=
  {| Auditor.id := "7"; Auditor.username := "asha";
     Auditor.status_class := "online"; Auditor.accuracy := JNum 800;
     Auditor.lat := JNum 9.9312; Auditor.lng := JNum 76.2673;
     Auditor.last_update := "2024-01-01T10:00:00" |}.

Definition stale_ravi : Auditor.t :=
  {| Auditor.id := "9"; Auditor.username := "ravi";
     Auditor.status_class := "stale"; Auditor.accuracy := JNum 650;
     Auditor.lat := JNum 9.94; Auditor.lng := JNum 76.27;
     Auditor.last_update := "2024-01-01T09:55:00" |}.

(** *** Trails *)

(** A stored point whose coordinates both passed the truthiness guard. *)
Definition located (p : TrailPos.t) : Prop :=
  truthy (TrailPos.lat p) = true /\ truthy (TrailPos.lng p) = true.

(** Two points that [updateRouteTrails] tells apart. *)
Definition differ (p q : TrailPos.t) : bool :=
  strict_neq (TrailPos.lat p) (TrailPos.lat q)
  || strict_neq (TrailPos.lng p) (TrailPos.lng q).

(** No point of the trail repeats the one stored just before it. *)
Definition distinct_neighbours (ps : list TrailPos.t) : Prop :=
  forall i p q, ps !! i = Some p -> ps !! S i = Some q -> differ p q = true.

Definition trail_ok (ps : list TrailPos.t) : Prop :=
  (1 <= length ps <= 20)%nat
  /\ Forall located ps
  /\ distinct_neighbours ps.

Definition trails_ok (f : Features.t) : Prop :=
  forall auditorId ps,
    Features.previousPositions f !! auditorId = Some ps -> trail_ok ps.

(** Every stored trail of two or more points is on the map. *)
Definition trails_are_drawn (f : Features.t) : Prop :=
  forall auditorId ps,
    Features.previousPositions f !! auditorId = Some ps ->
    (2 <= length ps)%nat ->
    Features.routes f !! auditorId = Some (Scenario.path_of ps).

(** An auditor walking north, one report per step. *)
Definition walker (step : nat) : Auditor.t :=
  {| Auditor.id := "w"; Auditor.username := "meera";
     Auditor.status_class := "online"; Auditor.accuracy := JNum 10;
     Auditor.lat := JNum (inject_Z (Z.of_nat step));
     Auditor.lng := JNum 76.2673;
     Auditor.last_update := "2024-01-01T10:00:00" |}.

(** The trail object after the walker's first twenty steps. *)
Definition full_trail : Features.t :=
  Scenario.update_all (map (fun step => [walker step]) (seq 1 20)).

End Terms.

(** * Properties *)

(** ** Multi-attempt acquisition *)

Section Acquisition.
Import Geo Scenario.

Lemma tryGetLocation_failure ps : forall best attempts req del e rest,
  Forall coarse ps ->
  (attempts + length ps < maxAttempts)%nat ->
  tryGetLocation (map GeoSuccess ps ++ GeoFailure e :: rest)
                 best attempts req del
  = {| outcome := match foldl keep_best best ps with
                  | Some b => Resolved b
                  | None => Rejected e
                  end;
       requests := (req + length ps + 1)%nat;
       delays := (del + length ps)%nat |}.
Proof.
  induction ps as [|p ps IH]; intros best attempts req del e rest Hc Hlen.
  - cbn. destruct best; f_equal; lia.
  - apply Forall_cons in Hc as [Hp Hc]. cbn [map app tryGetLocation].
    unfold coarse in Hp. rewrite Hp. cbn [orb].
    cbn [length] in Hlen.
    destruct (maxAttempts <=? S attempts)%nat eqn:Hmax.
    { apply Nat.leb_le in Hmax. unfold maxAttempts in *. lia. }
    rewrite IH by (trivial || lia). cbn [foldl length].
    f_equal; lia.
Qed.

Lemma keep_best_is_Some best p : is_Some (keep_best best p).
Proof. destruct best as [b|]; cbn; [destruct (Js.lt _ _)|]; eauto. Qed.

Lemma foldl_keep_best_is_Some ps : forall best,
  is_Some best -> is_Some (foldl keep_best best ps).
Proof.
  induction ps as [|p ps IH]; intros best H; cbn; [done|].
  apply IH, keep_best_is_Some.
Qed.

Lemma retained_None ps : retained ps = None <-> ps = [].
Proof.
  split; [|intros ->; reflexivity].
  destruct ps as [|p ps]; [done|]. unfold retained. cbn. intros H.
  destruct (foldl_keep_best_is_Some ps (Some p)) as [b Hb]; [eauto|].
  congruence.
Qed.

(** With [maxAttempts] answers at hand the promise always settles. *)
Lemma tryGetLocation_settles script : forall best attempts req del,
  (attempts < maxAttempts)%nat ->
  (maxAttempts <= attempts + length script)%nat ->
  outcome (tryGetLocation script best attempts req del) <> Pending.
Proof.
  induction script as [|[p|e] script IH]; intros best attempts req del Hlt Hle.
  - cbn in Hle. unfold maxAttempts in *. lia.
  - cbn [tryGetLocation].
    destruct (Qle_bool _ _ || _) eqn:Hstop; [done|].
    apply orb_false_iff in Hstop as [_ Hmax].
    apply Nat.leb_gt in Hmax. cbn [length] in Hle.
    apply IH; unfold maxAttempts in *; lia.
  - cbn. destruct best; done.
Qed.

Lemma getCurrentLocationUltraAccuracy_settles script :
  (maxAttempts <= length script)%nat ->
  outcome (getCurrentLocationUltraAccuracy script) <> Pending.
Proof.
  intros H. apply tryGetLocation_settles; [unfold maxAttempts; lia | lia].
Qed.

(** A run ends at the first success that is either accurate enough or
    the [maxAttempts]-th; the promise then resolves with
    [bestPosition || position]. *)
Lemma tryGetLocation_accept ps : forall best attempts req del p rest,
  Forall coarse ps ->
  (attempts + length ps < maxAttempts)%nat ->
  Qle_bool (accuracy (coords p)) 20 = true
  \/ (attempts + length ps + 1)%nat = maxAttempts ->
  tryGetLocation (map GeoSuccess ps ++ GeoSuccess p :: rest)
                 best attempts req del
  = {| outcome := Resolved (best_or (foldl keep_best best ps) p);
       requests := (req + length ps + 1)%nat;
       delays := (del + length ps)%nat |}.
Proof.
  induction ps as [|q ps IH]; intros best attempts req del p rest Hc Hlen Hend.
  - cbn [map app tryGetLocation foldl length] in *.
    assert (Qle_bool (accuracy (coords p)) 20
            || (maxAttempts <=? S attempts)%nat = true) as ->.
    { apply orb_true_iff. destruct Hend as [->|Hend]; [by left|right].
      apply Nat.leb_le. lia. }
    f_equal; lia.
  - apply Forall_cons in Hc as [Hq Hc]. cbn [map app tryGetLocation].
    unfold coarse in Hq. rewrite Hq. cbn [orb]. cbn [length] in Hlen, Hend.
    destruct (maxAttempts <=? S attempts)%nat eqn:Hmax.
    { apply Nat.leb_le in Hmax. lia. }
    rewrite IH; [| done | lia | destruct Hend; [by left | right; lia]].
    cbn [foldl length]. f_equal; lia.
Qed.

(** The retained sample is one of the samples seen, with the lowest
    accuracy radius among them. *)
Lemma foldl_keep_best_lowest ps : forall b0 b,
  foldl keep_best (Some b0) ps = Some b ->
  (b = b0 \/ b ∈ ps)
  /\ (accuracy (coords b) <= accuracy (coords b0))%Q
  /\ (forall p, p ∈ ps -> (accuracy (coords b) <= accuracy (coords p))%Q).
Proof.
  induction ps as [|q ps IH]; intros b0 b H; cbn in H.
  - injection H as <-. split; [by left|]. split; [apply Qle_refl|].
    intros p Hp. by apply elem_of_nil in Hp.
  - unfold Js.lt in H.
    destruct (Qle_bool (accuracy (coords b0)) (accuracy (coords q))) eqn:Hle;
      cbn in H; apply IH in H as (Hin & Hb & Hall).
    + apply Qle_bool_iff in Hle. split; [|split; [done|]].
      * destruct Hin as [->|Hin]; [by left|right; by apply elem_of_cons; right].
      * intros p [->|Hp]%elem_of_cons; [|by apply Hall].
        by eapply Qle_trans.
    + assert (accuracy (coords q) < accuracy (coords b0))%Q as Hlt.
      { apply Qnot_le_lt. intros Hc. apply Qle_bool_iff in Hc. congruence. }
      split; [|split].
      * right. apply elem_of_cons. destruct Hin as [->|Hin]; [by left|by right].
      * eapply Qle_trans; [exact Hb|]. by apply Qlt_le_weak.
      * intros p [->|Hp]%elem_of_cons; [done|by apply Hall].
Qed.

Lemma retained_lowest ps b :
  retained ps = Some b ->
  b ∈ ps /\ forall p, p ∈ ps -> (accuracy (coords b) <= accuracy (coords p))%Q.
Proof.
  destruct ps as [|q ps]; [done|]. unfold retained. cbn. intros H.
  apply foldl_keep_best_lowest in H as (Hin & Hb & Hall). split.
  - apply elem_of_cons. destruct Hin as [->|Hin]; [by left|by right].
  - intros p [->|Hp]%elem_of_cons; [done|by apply Hall].
Qed.

(** When the very first answer is accurate enough, the promise resolves
    with it after a single request. *)
Lemma ultra_first_accurate p rest :
  Qle_bool (accuracy (coords p)) 20 = true ->
  getCurrentLocationUltraAccuracy (GeoSuccess p :: rest)
  = {| outcome := Resolved p; requests := 1; delays := 0 |}.
Proof.
  intros Hp. unfold getCurrentLocationUltraAccuracy.
  apply (tryGetLocation_accept [] None 0%nat 0%nat 0%nat p rest);
    [constructor | unfold maxAttempts; cbn; lia | by left].
Qed.

(** An accurate answer that follows retained ones ends the run at once,
    but the promise resolves with the retained sample, not with the
    accurate one. *)
Lemma ultra_accurate_after_retained ps p rest b :
  Forall coarse ps -> (length ps < maxAttempts)%nat ->
  Qle_bool (accuracy (coords p)) 20 = true ->
  retained ps = Some b ->
  getCurrentLocationUltraAccuracy (map GeoSuccess ps ++ GeoSuccess p :: rest)
  = {| outcome := Resolved b; requests := S (length ps);
       delays := length ps |}.
Proof.
  intros Hc Hlen Hp Hb. unfold getCurrentLocationUltraAccuracy.
  rewrite (tryGetLocation_accept ps None 0%nat 0%nat 0%nat p rest);
    [| done | cbn; lia | by left].
  fold (retained ps). rewrite Hb. cbn. f_equal. lia.
Qed.

(** When the budget runs out on the third answer, the promise resolves
    with the better of the first two samples; the third is not compared. *)
Lemma ultra_budget_exhausted p1 p2 p3 rest :
  coarse p1 -> coarse p2 ->
  outcome (getCurrentLocationUltraAccuracy
             (GeoSuccess p1 :: GeoSuccess p2 :: GeoSuccess p3 :: rest))
  = Resolved (if Js.lt (accuracy (coords p2)) (accuracy (coords p1))
              then p2 else p1).
Proof.
  intros H1 H2. unfold getCurrentLocationUltraAccuracy.
  change (GeoSuccess p1 :: GeoSuccess p2 :: GeoSuccess p3 :: rest)
    with (map GeoSuccess [p1; p2] ++ GeoSuccess p3 :: rest).
  rewrite (tryGetLocation_accept [p1; p2] None 0%nat 0%nat 0%nat p3 rest);
    [| by repeat constructor | unfold maxAttempts; cbn; lia
     | right; reflexivity].
  cbn. by destruct (Js.lt _ _).
Qed.

(** The second scripted run of the specification: accuracies
    300m, 250m, 280m resolve with the 250m sample after three requests
    and two delays. *)
Example ultra_scripted_300_250_280 :
  getCurrentLocationUltraAccuracy
    [GeoSuccess (sample 300); GeoSuccess (sample 250); GeoSuccess (sample 280)]
  = {| outcome := Resolved (sample 250); requests := 3; delays := 2 |}.
Proof. vm_compute. reflexivity. Qed.

(** C1 (evaluation of the code at the scripted run 300m, 80m, 15m).
    The third answer has accuracy 15m, so the run stops after exactly
    three requests and two delays; the promise however resolves with the
    retained 80m sample, [bestPosition || position], and not with the 15m
    sample that the claim names. *)
Theorem ultra_scripted_300_80_15 :
  getCurrentLocationUltraAccuracy
    [GeoSuccess (sample 300); GeoSuccess (sample 80); GeoSuccess (sample 15)]
  = {| outcome := Resolved (sample 80); requests := 3; delays := 2 |}
  /\ sample 80 <> sample 15.
Proof. split; [vm_compute; reflexivity | discriminate]. Qed.

(** C2 (evaluation of the code at the run 300m, 250m, 100m). No sample is
    within 20m and all three requests succeed; the lowest accuracy radius
    seen is 100m, but the promise resolves with the 250m sample: the answer
    that exhausts the budget is never compared with the retained one. *)
Theorem ultra_scripted_300_250_100 :
  Forall coarse [sample 300; sample 250; sample 100]
  /\ getCurrentLocationUltraAccuracy
       [GeoSuccess (sample 300); GeoSuccess (sample 250);
        GeoSuccess (sample 100)]
     = {| outcome := Resolved (sample 250); requests := 3; delays := 2 |}
  /\ (accuracy (coords (sample 100)) < accuracy (coords (sample 250)))%Q.
Proof.
  split; [repeat constructor|].
  split; [vm_compute; reflexivity | reflexivity].
Qed.

(** C9. In an acquisition whose request number [length ps + 1] fails with
    error [e] (the earlier requests having succeeded with the samples [ps],
    none of which ended the run), the failing request is the last one made;
    if no sample was retained the promise rejects with [e], and if a sample
    was retained the promise resolves with it. *)
Theorem ultra_failure_resolves_retained_or_rejects
    (ps : list Position) (e : PositionError) (rest : list GeoOutcome) :
  Forall coarse ps -> (length ps < maxAttempts)%nat ->
  let run :=
    getCurrentLocationUltraAccuracy
      (map GeoSuccess ps ++ GeoFailure e :: rest) in
  requests run = S (length ps)
  /\ match retained ps with
     | None => ps = [] /\ outcome run = Rejected e
     | Some b => b ∈ ps /\ outcome run = Resolved b
     end.
Proof.
  intros Hc Hlen run. subst run. unfold getCurrentLocationUltraAccuracy.
  rewrite tryGetLocation_failure by (done || (cbn; lia)).
  fold (retained ps). cbn [requests outcome]. split; [lia|].
  destruct (retained ps) as [b|] eqn:Hb.
  - split; [|done]. by apply retained_lowest in Hb as [? _].
  - split; [|done]. by apply retained_None.
Qed.

Lemma ultra_failure_resolves_retained_or_rejects_witness :
  Forall coarse [sample 300]
  /\ (length [sample 300] < maxAttempts)%nat
  /\ (let run :=
        getCurrentLocationUltraAccuracy
          (map GeoSuccess [sample 300] ++ GeoFailure timeout_error :: []) in
      requests run = S (length [sample 300])
      /\ match retained [sample 300] with
         | None => [sample 300] = [] /\ outcome run = Rejected timeout_error
         | Some b => b ∈ [sample 300] /\ outcome run = Resolved b
         end).
Proof.
  split; [repeat constructor|].
  split; [unfold maxAttempts; cbn; lia|].
  apply (ultra_failure_resolves_retained_or_rejects
           [sample 300] timeout_error []).
  - repeat constructor.
  - unfold maxAttempts; cbn; lia.
Defined.

End Acquisition.

(** ** The tracking controller *)

Section Controller.
Import Js Geo Tracker Scenario.

Lemma set_isTracking_same t : set_isTracking (isTracking t) t = t.
Proof. by destruct t. Qed.

Lemma truthy_id_nonzero id : id <> 0 -> truthy_id (Some id) = true.
Proof. intros H. cbn. by apply negb_true_iff, Z.eqb_neq. Qed.

Lemma truthy_str_nonempty s : s <> EmptyString -> truthy_str (Some s) = true.
Proof. intros H. cbn. by apply negb_true_iff, String.eqb_neq. Qed.

Lemma clearWatch_only (id : Z) : filter (fun x => x <> id) [id] = [].
Proof. cbn. by destruct (decide (id <> id)). Qed.

Example active_world_Active : Active active_world.
Proof.
  vm_compute. split; [done|]. split.
  - exists 1. by repeat split.
  - by exists "s1".
Qed.

Example boot_Idle : Idle boot.
Proof. by repeat split. Qed.

Lemma or_else_given (reason fallback : string) :
  reason <> EmptyString -> or_else (Some reason) fallback = reason.
Proof.
  intros H. unfold or_else. apply String.eqb_neq in H. by rewrite H.
Qed.

(** C7. When [startTracking] runs in the Idle state, the initial fix is
    obtained and the session endpoint answers [success: false], the
    controller is Idle afterwards with its fields unchanged and no watch is
    registered with the platform. The only effects are the session request
    and one error toast: when the body gives a reason, the toast is
    "Failed to start tracking: " followed by that very reason; when the body
    gives none (or an empty one), it is followed by the default text. *)
Theorem start_rejected_stays_idle
    (w : World) (env : StartEnv) (position : Position) (body : ApiResponse) :
  Idle w ->
  outcome (getCurrentLocationUltraAccuracy (geoScript env))
    = Resolved position ->
  sessionAnswer env = Json body ->
  success body = false ->
  let w' := exec (startTracking env) w in
  Idle w'
  /\ this w' = this w
  /\ watches w' = watches w
  /\ (forall reason : string,
        error body = Some reason -> reason <> EmptyString ->
        effects w'
        = effects w
          ++ [PostStartTracking;
              ShowError ("Failed to start tracking: " +:+ reason)])
  /\ (error body = None \/ error body = Some EmptyString ->
      effects w'
      = effects w
        ++ [PostStartTracking;
            ShowError
              "Failed to start tracking: Failed to start tracking session"]).
Proof.
  intros Hidle Hgeo Hsession Hsuccess w'.
  assert (w' = {| this := this w; watches := watches w;
                  effects := effects w
                    ++ [PostStartTracking;
                        ShowError ("Failed to start tracking: "
                                   +:+ or_else (error body)
                                         "Failed to start tracking session")]
               |}) as ->.
  { subst w'. destruct Hidle as (Htrk & _).
    unfold exec, startTracking, try_catch, bind, await_position,
      startTrackingSession, await_fetch.
    rewrite Hgeo, Hsession. cbn. rewrite Hsuccess. cbn.
    rewrite <- Htrk, set_isTracking_same, <- app_assoc. reflexivity. }
  cbn [this watches effects].
  split; [exact Hidle|]. split; [reflexivity|]. split; [reflexivity|]. split.
  - intros reason Herr Hne. by rewrite Herr, or_else_given.
  - intros [Herr|Herr]; by rewrite Herr.
Qed.

Lemma start_rejected_stays_idle_witness :
  Idle boot
  /\ outcome (getCurrentLocationUltraAccuracy (geoScript refused_start))
     = Resolved (sample 15)
  /\ sessionAnswer refused_start = Json (refused "No active route")
  /\ success (refused "No active route") = false
  /\ error (refused "No active route") = Some "No active route"
  /\ "No active route" <> EmptyString
  /\ (let w' := exec (startTracking refused_start) boot in
      Idle w'
      /\ this w' = this boot
      /\ watches w' = []
      /\ effects w'
         = [PostStartTracking;
            ShowError "Failed to start tracking: No active route"]).
Proof.
  assert (Idle boot) as H1 by (by repeat split).
  assert (outcome (getCurrentLocationUltraAccuracy (geoScript refused_start))
          = Resolved (sample 15)) as H2 by (vm_compute; reflexivity).
  assert (sessionAnswer refused_start = Json (refused "No active route"))
    as H3 by reflexivity.
  assert (success (refused "No active route") = false) as H4 by reflexivity.
  assert (error (refused "No active route") = Some "No active route")
    as H5 by reflexivity.
  assert ("No active route" <> EmptyString) as H6 by discriminate.
  split; [exact H1|]. split; [exact H2|]. split; [exact H3|].
  split; [exact H4|]. split; [exact H5|]. split; [exact H6|].
  destruct (start_rejected_stays_idle boot refused_start (sample 15)
              (refused "No active route") H1 H2 H3 H4)
    as (Hidle & Hthis & Hwatches & Hreason & _).
  split; [exact Hidle|]. split; [exact Hthis|]. split; [exact Hwatches|].
  exact (Hreason "No active route" H5 H6).
Defined.

(** The same holds when the session request fails in transport. *)
Lemma start_unreachable_stays_idle
    (w : World) (env : StartEnv) (position : Position) (reason : string) :
  Idle w ->
  outcome (getCurrentLocationUltraAccuracy (geoScript env))
    = Resolved position ->
  sessionAnswer env = FetchFails reason ->
  let w' := exec (startTracking env) w in
  Idle w' /\ this w' = this w /\ watches w' = watches w.
Proof.
  intros Hidle Hgeo Hsession w'.
  assert (this w' = this w /\ watches w' = watches w) as [Ht Hw].
  { subst w'. destruct Hidle as (Htrk & _).
    unfold exec, startTracking, try_catch, bind, await_position,
      startTrackingSession, await_fetch.
    rewrite Hgeo, Hsession. cbn.
    by rewrite <- Htrk, set_isTracking_same. }
  unfold Idle. rewrite Ht, Hw. by repeat split; try apply Hidle.
Qed.

(** C5 (evaluation of the code where the initial report fails). The fix is
    obtained, the session is accepted under id s1, watch 1 is registered,
    and the initial report is answered [success: false]. The [catch] block
    only resets [isTracking]: the controller ends not tracking while the
    platform still holds watch 1 and the session id s1 is retained, a state
    that is neither Idle nor Active. *)
Theorem start_unreported_leaves_watch_and_session :
  let w' := exec (startTracking unreported_start) boot in
  isTracking (this w') = false
  /\ watchId (this w') = Some 1
  /\ sessionId (this w') = Some "s1"
  /\ watches w' = [1]
  /\ ~ Idle w' /\ ~ Active w'.
Proof.
  vm_compute. repeat split; try reflexivity.
  - intros (_ & H & _). discriminate.
  - intros (H & _). discriminate.
Qed.

(** What [onLocationError] does for PERMISSION_DENIED in any state: only
    [isTracking] changes. *)
Lemma onLocationError_denied (w : World) (e : PositionError) :
  code e = PERMISSION_DENIED ->
  exec (onLocationError e) w
  = {| this := set_isTracking false (this w);
       watches := watches w;
       effects := effects w
         ++ [ShowError "Location permission denied. Please enable location access in your browser settings.";
             UpdateTrackingUI false] |}.
Proof.
  intros H. unfold exec, onLocationError. rewrite H. cbn.
  by rewrite <- app_assoc.
Qed.

(** C3 (evaluation of the code for PERMISSION_DENIED while Active). After
    a successful start (watch 1, session s1) the error callback receives
    code 1. The controller stops tracking and refreshes the UI, but the
    platform still holds watch 1 and the fields [watchId] and [sessionId]
    keep their values: the subscription is not cancelled and the session
    id is not cleared. *)
Theorem permission_denied_keeps_watch_and_session :
  Active active_world
  /\ (let w' := exec (onLocationError denied_error) active_world in
      isTracking (this w') = false
      /\ watchId (this w') = Some 1
      /\ sessionId (this w') = Some "s1"
      /\ watches w' = [1]
      /\ ~ Idle w').
Proof.
  split; [apply active_world_Active|].
  vm_compute. repeat split; try reflexivity.
  intros (_ & H & _). discriminate.
Qed.

(** C4 (the claim as stated fails). On the controller that has tracked
    one update, a [stopTracking] whose session notification is rejected in
    transport leaves the controller tracking with its session id, and a
    [stopTracking] whose notification succeeds still leaves the location
    history in place. *)
Lemma stop_keeps_history_and_failure_blocks :
  Active tracked_world
  /\ (let w' := exec (stopTracking (FetchFails "Failed to fetch"))
                     tracked_world in
      isTracking (this w') = true
      /\ sessionId (this w') = Some "s1"
      /\ locationHistory (this w') <> [])
  /\ (let w' := exec (stopTracking (Json done_ok)) tracked_world in
      isTracking (this w') = false
      /\ locationHistory (this w') <> []).
Proof.
  split.
  { vm_compute. split; [done|]. split.
    - exists 1. by repeat split.
    - by exists "s1". }
  vm_compute. by repeat split.
Qed.

(** C4 (amended). Every [stopTracking] from the Active state cancels the
    watch subscription and clears [watchId], whatever the session endpoint
    answers, and leaves the location history as it was. When the
    notification is answered with a body (whatever its [success] flag),
    the session id and the time of the last update are cleared and the
    controller is Idle. When the notification is rejected, the failure is
    shown as an error toast. *)
Theorem stop_from_active (w : World) (answer : Fetched) :
  Active w ->
  let w' := exec (stopTracking answer) w in
  watchId (this w') = None
  /\ watches w' = []
  /\ locationHistory (this w') = locationHistory (this w)
  /\ (forall body, answer = Json body ->
        Idle w' /\ lastUpdate (this w') = None)
  /\ (forall reason, answer = FetchFails reason ->
        last (effects w')
        = Some (ShowError ("Error stopping tracking: " +:+ reason))).
Proof.
  intros (Htrk & (id & Hid & Hnz & Hws) & (sid & Hsid & Hne)) w'. subst w'.
  destruct w as [[wid trk ses lu hist] ws effs]. cbn in *. subst.
  assert ((sid =? EmptyString)%string = false) as Hs
    by (by apply String.eqb_neq).
  assert ((id =? 0) = false) as Hz by (by apply Z.eqb_neq).
  unfold exec, stopTracking, try_catch, bind, get, truthy_id.
  cbn [this watchId]. rewrite Hz. cbn. rewrite Hs.
  destruct (decide (id <> id)) as [Hbad|_]; [done|].
  destruct answer as [body|reason]; cbn.
  - repeat split; try done.
  - repeat split; try done.
    intros ? [= <-]. by rewrite last_snoc.
Qed.

Lemma stop_from_active_witness :
  Active tracked_world
  /\ (let w' := exec (stopTracking (Json done_ok)) tracked_world in
      watchId (this w') = None
      /\ watches w' = []
      /\ locationHistory (this w') = locationHistory (this tracked_world)
      /\ (forall body, Json done_ok = Json body ->
            Idle w' /\ lastUpdate (this w') = None)
      /\ (forall reason, Json done_ok = FetchFails reason ->
            last (effects w')
            = Some (ShowError ("Error stopping tracking: " +:+ reason)))).
Proof.
  assert (Active tracked_world) as H.
  { vm_compute. split; [reflexivity|]. split.
    - exists 1. split; [reflexivity|]. split; [discriminate | reflexivity].
    - exists "s1". split; [reflexivity | discriminate]. }
  split; [exact H|].
  apply (stop_from_active tracked_world (Json done_ok) H).
Defined.

End Controller.

(** ** Alerts *)

Section Alerts.
Import Js Features Scenario.

Lemma alertId_inj k1 e1 k2 e2 :
  alertId k1 e1 = alertId k2 e2 -> k1 = k2 /\ e1 = e2.
Proof. destruct k1, k2; cbn; intros [=]; by subst. Qed.

Lemma hasAlert_false i f :
  hasAlert i f = false -> i ∉ Alert.id <$> alerts f.
Proof.
  unfold hasAlert. intros H [a [-> Ha]]%list_elem_of_fmap.
  assert (existsb (fun alert => String.eqb (Alert.id alert) (Alert.id a))
                  (alerts f) = true); [|congruence].
  apply existsb_exists. exists a. split; [by apply list_elem_of_In|].
  apply String.eqb_refl.
Qed.

Lemma addAlert_NoDup a f :
  hasAlert (Alert.id a) f = false ->
  NoDup (Alert.id <$> alerts f) ->
  NoDup (Alert.id <$> alerts (addAlert a f)).
Proof.
  intros Hno Hnd. cbn. rewrite fmap_app. apply NoDup_app.
  split; [done|]. split; [|apply NoDup_singleton].
  intros i Hi [->|[]%elem_of_nil]%elem_of_cons.
  by apply hasAlert_false in Hno.
Qed.

Lemma removeAlert_NoDup i f :
  NoDup (Alert.id <$> alerts f) ->
  NoDup (Alert.id <$> alerts (removeAlert i f)).
Proof.
  intros Hnd. cbn. eapply sublist_NoDup; [exact Hnd|].
  apply fmap_sublist, sublist_filter.
Qed.

Lemma checkAuditor_NoDup now auditor f :
  NoDup (Alert.id <$> alerts f) ->
  NoDup (Alert.id <$> alerts (checkAuditor now auditor f)).
Proof.
  intros Hnd. unfold checkAuditor.
  set (f1 := if (_ && negb (hasAlert (alertId Offline _) f)) then _ else f).
  assert (NoDup (Alert.id <$> alerts f1)) as H1.
  { subst f1. destruct (String.eqb _ _); cbn [andb]; [|done].
    destruct (hasAlert _ f) eqn:Hh; cbn [negb]; [done|].
    by apply addAlert_NoDup. }
  clearbody f1.
  set (f2 := if (_ && negb (hasAlert (alertId LowAccuracy _) f1))
             then _ else f1).
  assert (NoDup (Alert.id <$> alerts f2)) as H2.
  { subst f2. destruct (gt _ _); cbn [andb]; [|done].
    destruct (hasAlert _ f1) eqn:Hh; cbn [negb]; [done|].
    by apply addAlert_NoDup. }
  clearbody f2.
  destruct (String.eqb _ _); [|done].
  by do 2 apply removeAlert_NoDup.
Qed.

Lemma checkForAlerts_NoDup now auditors : forall f,
  NoDup (Alert.id <$> alerts f) ->
  NoDup (Alert.id <$> alerts (checkForAlerts now auditors f)).
Proof.
  induction auditors as [|a auditors IH]; intros f Hnd; [done|].
  cbn. by apply IH, checkAuditor_NoDup.
Qed.

Lemma evaluate_all_NoDup calls :
  NoDup (Alert.id <$> alerts (evaluate_all calls)).
Proof.
  unfold evaluate_all.
  induction calls as [|call calls IH] using rev_ind.
  - cbn. apply NoDup_nil_2.
  - rewrite foldl_snoc. by apply checkForAlerts_NoDup.
Qed.

(** Among records with pairwise distinct ids at most one has a given id. *)
Lemma NoDup_ids_at_most_one (l : list Alert.t) i :
  NoDup (Alert.id <$> l) ->
  (length (filter (fun a => Alert.id a = i) l) <= 1)%nat.
Proof.
  induction l as [|a l IH]; intros Hnd; [cbn; lia|].
  rewrite fmap_cons in Hnd. apply NoDup_cons in Hnd as [Hnotin Hnd].
  rewrite filter_cons. destruct (decide (Alert.id a = i)) as [<-|_].
  - assert (filter (fun b => Alert.id b = Alert.id a) l = []) as ->;
      [|cbn; lia].
    destruct (filter _ l) as [|b l'] eqn:Hf; [done|].
    assert (b ∈ filter (fun b => Alert.id b = Alert.id a) l) as Hb
      by (rewrite Hf; apply list_elem_of_here).
    apply list_elem_of_filter in Hb as [Hid Hb].
    destruct Hnotin. rewrite <- Hid. by apply list_elem_of_fmap_2.
  - by apply IH.
Qed.

Lemma Forall_filter_keep {A} (P Q : A -> Prop) `{forall x, Decision (Q x)}
    (l : list A) :
  Forall P l -> Forall P (filter Q l).
Proof.
  rewrite !Forall_forall. intros H' x [_ Hx]%list_elem_of_filter.
  by apply H'.
Qed.

Lemma checkAuditor_well_keyed now auditor f :
  Forall well_keyed (alerts f) ->
  Forall well_keyed (alerts (checkAuditor now auditor f)).
Proof.
  intros H. unfold checkAuditor.
  set (f1 := if (_ && negb (hasAlert (alertId Offline _) f)) then _ else f).
  assert (Forall well_keyed (alerts f1)) as H1.
  { subst f1. destruct (_ && _); [|done]. cbn.
    apply Forall_app. split; [done|]. apply Forall_singleton.
    exists (Auditor.id auditor). by left. }
  clearbody f1.
  set (f2 := if (_ && negb (hasAlert (alertId LowAccuracy _) f1))
             then _ else f1).
  assert (Forall well_keyed (alerts f2)) as H2.
  { subst f2. destruct (_ && _); [|done]. cbn.
    apply Forall_app. split; [done|]. apply Forall_singleton.
    exists (Auditor.id auditor). by right. }
  clearbody f2.
  destruct (String.eqb _ _); [|done]. cbn.
  by do 2 apply Forall_filter_keep.
Qed.

Lemma checkForAlerts_well_keyed now auditors : forall f,
  Forall well_keyed (alerts f) ->
  Forall well_keyed (alerts (checkForAlerts now auditors f)).
Proof.
  induction auditors as [|a auditors IH]; intros f Hf; [done|].
  cbn. by apply IH, checkAuditor_well_keyed.
Qed.

Lemma evaluate_all_well_keyed calls :
  Forall well_keyed (alerts (evaluate_all calls)).
Proof.
  unfold evaluate_all.
  induction calls as [|call calls IH] using rev_ind.
  - cbn. constructor.
  - rewrite foldl_snoc. by apply checkForAlerts_well_keyed.
Qed.

(** C6. After any sequence of [checkForAlerts] calls on a fresh object,
    the alert set holds at most one alert for each pair of a kind and an
    auditor id; stated on the alert ids, which determine the pair: the ids
    in the set are pairwise distinct, and for every kind [k] and auditor id
    [e] at most one alert in the set is keyed by [(k, e)]. *)
Theorem alerts_unique_per_kind_and_auditor
    (calls : list (Z * list Auditor.t)) :
  NoDup (Alert.id <$> alerts (evaluate_all calls))
  /\ forall (k : Kind) (e : string),
       (length (filter (keyed k e) (alerts (evaluate_all calls))) <= 1)%nat.
Proof.
  split; [apply evaluate_all_NoDup|].
  intros k e. apply NoDup_ids_at_most_one, evaluate_all_NoDup.
Qed.

(** The rules at work: a repeated offline report with poor accuracy
    raises each alert once, and an online report for the same auditor
    clears both. *)
Example alerts_offline_twice_then_online :
  let off := {| Auditor.id := "7"; Auditor.username := "asha";
                Auditor.status_class := "offline";
                Auditor.accuracy := JNum 800;
                Auditor.lat := JNum 9.9312; Auditor.lng := JNum 76.2673;
                Auditor.last_update := "2024-01-01T10:00:00" |} in
  (Alert.id <$> alerts (evaluate_all [(1, [off]); (2, [off; off])]))
    = ["offline_7"; "accuracy_7"]
  /\ (Alert.message <$> alerts (evaluate_all [(1, [off])]))
     = ["asha has been offline for over 15 minutes";
        "asha has low GPS accuracy (±800m)"]
  /\ alerts (evaluate_all [(1, [off]); (2, [equator_auditor])]) = [].
Proof. vm_compute. repeat split; reflexivity. Qed.

End Alerts.


(** ** Route trails *)

Section Trails.
Import Js Features Scenario.

Lemma strict_neq_refl v : strict_neq v v = false.
Proof. destruct v; cbn; [done..|]. by rewrite Qeq_bool_refl. Qed.

Lemma drawTrail_short auditorId positions f :
  (length positions < 2)%nat -> drawTrail auditorId positions f = f.
Proof.
  intros H. unfold drawTrail.
  by destruct (Nat.ltb_spec (length positions) 2); [|lia].
Qed.

Lemma set_previousPositions_same f :
  set_previousPositions (previousPositions f) f = f.
Proof. by destruct f. Qed.

(** One entry either leaves the object as it is, or stores the pushed
    trail and hands it to [drawTrail]. *)
Lemma updateAuditor_skip_or_push auditor f :
  let auditorId := Auditor.id auditor in
  let positions :=
    pushed (default [] (previousPositions f !! auditorId)) auditor in
  updateAuditor auditor f = f
  \/ updateAuditor auditor f
     = drawTrail auditorId positions
         (set_previousPositions
            (<[auditorId := positions]> (previousPositions f)) f).
Proof.
  intros auditorId positions. subst positions auditorId.
  unfold updateAuditor, pushed, point_of.
  destruct (truthy _ && truthy _); [|by left].
  destruct (previousPositions f !! Auditor.id auditor) as [ps|] eqn:Hps.
  - rewrite Hps. cbn [default from_option id].
    destruct (last ps) as [lp|]; [|by right].
    destruct (strict_neq _ _ || strict_neq _ _); [by right | by left].
  - right. cbn [previousPositions set_previousPositions].
    rewrite lookup_insert_eq. cbn [default from_option id last app].
    cbn [alerts routes drawn]. by rewrite insert_insert_eq.
Qed.

Lemma pushed_length positions auditor :
  (1 <= length (pushed positions auditor))%nat
  /\ ((2 <= length positions)%nat ->
      (2 <= length (pushed positions auditor))%nat).
Proof.
  unfold pushed.
  destruct (Nat.ltb_spec 20 (length (positions ++ [point_of auditor])))
    as [Hlt|Hge].
  - destruct positions as [|x l]; cbn [app tail length] in *; [lia|].
    rewrite length_app in *. cbn [length] in *. split; intros; lia.
  - rewrite length_app. cbn [length]. split; intros; lia.
Qed.

Lemma drawTrail_follows auditorId positions f :
  previousPositions f !! auditorId = Some positions ->
  (forall other path, other <> auditorId ->
     routes f !! other = Some path ->
     exists ps, previousPositions f !! other = Some ps
                /\ path = path_of ps /\ (2 <= length ps)%nat) ->
  (is_Some (routes f !! auditorId) -> (2 <= length positions)%nat) ->
  routes_follow_trails (drawTrail auditorId positions f).
Proof.
  intros Hpos Hothers Hself. unfold drawTrail.
  destruct (Nat.ltb_spec (length positions) 2) as [Hshort|Hlong].
  - intros other path Hr. destruct (decide (other = auditorId)) as [->|Hne].
    + assert (2 <= length positions)%nat by (apply Hself; eauto). lia.
    + by apply Hothers.
  - intros other path Hr. cbn [routes previousPositions] in *.
    destruct (decide (other = auditorId)) as [->|Hne].
    + rewrite lookup_insert_eq in Hr. injection Hr as <-.
      exists positions. by repeat split.
    + rewrite lookup_insert_ne in Hr by done. by apply Hothers.
Qed.

Lemma updateAuditor_follows auditor f :
  routes_follow_trails f -> routes_follow_trails (updateAuditor auditor f).
Proof.
  intros Hinv.
  destruct (updateAuditor_skip_or_push auditor f) as [->| ->]; [done|].
  apply drawTrail_follows; cbn [previousPositions routes set_previousPositions].
  - apply lookup_insert_eq.
  - intros other path Hne Hr. rewrite lookup_insert_ne by done.
    by apply Hinv.
  - intros [path Hr]. apply Hinv in Hr as (ps & Hps & _ & Hlen).
    rewrite Hps. cbn [default from_option id]. by apply pushed_length.
Qed.

Lemma updateRouteTrails_follows auditors : forall f,
  routes_follow_trails f -> routes_follow_trails (updateRouteTrails auditors f).
Proof.
  induction auditors as [|a auditors IH]; intros f Hinv; [done|].
  cbn. by apply IH, updateAuditor_follows.
Qed.

Lemma update_all_follows snapshots : routes_follow_trails (update_all snapshots).
Proof.
  unfold update_all. induction snapshots as [|s snapshots IH] using rev_ind.
  - intros i path H. cbn in H. by rewrite lookup_empty in H.
  - rewrite foldl_snoc. by apply updateRouteTrails_follows.
Qed.

(** Every polyline ever put on the map has at least two vertices. *)
Lemma drawTrail_drawable auditorId positions f :
  Forall (fun d => drawable d.2) (drawn f) ->
  Forall (fun d => drawable d.2) (drawn (drawTrail auditorId positions f)).
Proof.
  intros H. unfold drawTrail.
  destruct (Nat.ltb_spec (length positions) 2) as [Hshort|Hlong]; [done|].
  cbn [drawn]. apply Forall_app. split; [done|]. apply Forall_singleton.
  unfold drawable. cbn [snd]. by rewrite length_map.
Qed.

Lemma updateAuditor_drawable auditor f :
  Forall (fun d => drawable d.2) (drawn f) ->
  Forall (fun d => drawable d.2) (drawn (updateAuditor auditor f)).
Proof.
  intros H.
  destruct (updateAuditor_skip_or_push auditor f) as [->| ->]; [done|].
  by apply drawTrail_drawable.
Qed.

Lemma updateRouteTrails_drawable auditors : forall f,
  Forall (fun d => drawable d.2) (drawn f) ->
  Forall (fun d => drawable d.2) (drawn (updateRouteTrails auditors f)).
Proof.
  induction auditors as [|a auditors IH]; intros f H; [done|].
  cbn. by apply IH, updateAuditor_drawable.
Qed.

Lemma update_all_drawable snapshots :
  Forall (fun d => drawable d.2) (drawn (update_all snapshots)).
Proof.
  unfold update_all. induction snapshots as [|s snapshots IH] using rev_ind.
  - constructor.
  - rewrite foldl_snoc. by apply updateRouteTrails_drawable.
Qed.

Lemma updateAuditor_same_point auditor f positions lastPosition :
  previousPositions f !! Auditor.id auditor = Some positions ->
  last positions = Some lastPosition ->
  strict_neq (TrailPos.lat lastPosition) (Auditor.lat auditor) = false ->
  strict_neq (TrailPos.lng lastPosition) (Auditor.lng auditor) = false ->
  updateAuditor auditor f = f.
Proof.
  intros Hpos Hlast Hlat Hlng. unfold updateAuditor.
  destruct (truthy _ && truthy _); [|done].
  rewrite Hpos. cbn beta iota zeta. rewrite Hpos.
  cbn -[strict_neq last Nat.ltb]. rewrite Hlast.
  by rewrite Hlat, Hlng.
Qed.

(** C8. In [updateRouteTrails], an entry whose [lat] and [lng] are both
    strictly equal to those of the last stored point of its trail leaves the
    object unchanged: nothing is appended and nothing is drawn. [drawTrail]
    draws nothing for fewer than two positions; over any sequence of
    [updateRouteTrails] calls every polyline put on the map has at least two
    vertices, and an auditor whose stored trail has fewer than two points has
    no polyline. *)
Theorem trail_repeat_is_noop_and_short_never_drawn :
  (forall (auditor : Auditor.t) (f : t) (positions : list TrailPos.t)
          (lastPosition : TrailPos.t),
     previousPositions f !! Auditor.id auditor = Some positions ->
     last positions = Some lastPosition ->
     strict_neq (TrailPos.lat lastPosition) (Auditor.lat auditor) = false ->
     strict_neq (TrailPos.lng lastPosition) (Auditor.lng auditor) = false ->
     updateAuditor auditor f = f)
  /\ (forall (auditorId : string) (positions : list TrailPos.t) (f : t),
        (length positions < 2)%nat -> drawTrail auditorId positions f = f)
  /\ (forall snapshots : list (list Auditor.t),
        Forall (fun d => drawable d.2) (drawn (update_all snapshots))
        /\ forall (auditorId : string) (positions : list TrailPos.t),
             previousPositions (update_all snapshots) !! auditorId
               = Some positions ->
             (length positions < 2)%nat ->
             routes (update_all snapshots) !! auditorId = None).
Proof.
  split; [exact updateAuditor_same_point|].
  split; [exact drawTrail_short|].
  intros snapshots. split; [apply update_all_drawable|].
  intros auditorId positions Hpos Hshort.
  destruct (routes (update_all snapshots) !! auditorId) as [path|] eqn:Hr;
    [|done].
  apply update_all_follows in Hr as (ps & Hps & _ & Hlen).
  rewrite Hpos in Hps. injection Hps as <-. lia.
Qed.

Lemma trail_repeat_is_noop_and_short_never_drawn_witness :
  previousPositions kochi_trail !! Auditor.id kochi_auditor
    = Some [kochi_point]
  /\ last [kochi_point] = Some kochi_point
  /\ strict_neq (TrailPos.lat kochi_point) (Auditor.lat kochi_auditor) = false
  /\ strict_neq (TrailPos.lng kochi_point) (Auditor.lng kochi_auditor) = false
  /\ updateAuditor kochi_auditor kochi_trail = kochi_trail
  /\ (length [kochi_point] < 2)%nat
  /\ drawTrail "9" [kochi_point] kochi_trail = kochi_trail.
Proof.
  assert (previousPositions kochi_trail !! Auditor.id kochi_auditor
          = Some [kochi_point]) as Hpos by (vm_compute; reflexivity).
  assert ((length [kochi_point] < 2)%nat) as Hlen by (cbn; lia).
  split; [exact Hpos|].
  split; [reflexivity|].
  split; [vm_compute; reflexivity|].
  split; [vm_compute; reflexivity|].
  split.
  - apply (proj1 trail_repeat_is_noop_and_short_never_drawn
             kochi_auditor kochi_trail [kochi_point] kochi_point Hpos).
    + reflexivity.
    + vm_compute; reflexivity.
    + vm_compute; reflexivity.
  - split; [exact Hlen|].
    apply (proj1 (proj2 trail_repeat_is_noop_and_short_never_drawn)
             "9" [kochi_point] kochi_trail Hlen).
Defined.

(** The trail of a moving auditor: the first point is stored but not drawn,
    the second point draws the two-vertex polyline, a repeated point changes
    nothing. *)
Example trail_first_second_repeat :
  let moved :=
    {| Auditor.id := "9"; Auditor.username := "ravi";
       Auditor.status_class := "online"; Auditor.accuracy := JNum 30;
       Auditor.lat := JNum 9.94; Auditor.lng := JNum 76.27;
       Auditor.last_update := "2024-01-01T10:00:30" |} in
  drawn kochi_trail = []
  /\ drawn (update_all [[kochi_auditor]; [moved]])
     = [("9", [(JNum 9.9312, JNum 76.2673); (JNum 9.94, JNum 76.27)])]
  /\ update_all [[kochi_auditor]; [moved]; [moved]]
     = update_all [[kochi_auditor]; [moved]].
Proof. vm_compute. repeat split; reflexivity. Qed.

Lemma truthy_zero v : is_zero v -> truthy v = false.
Proof.
  destruct v as [| |q]; cbn; [done..|]. intros H.
  apply Qeq_bool_iff in H. by rewrite H.
Qed.

(** C10. An entry of [updateRouteTrails] whose [lat] or [lng] is the number
    0 is skipped, whether or not the other coordinate is present: the entry
    leaves the object unchanged (no point appended, nothing drawn), so a
    call gives the same result with or without that entry. *)
Theorem trail_zero_coordinate_skipped (auditor : Auditor.t) :
  is_zero (Auditor.lat auditor) \/ is_zero (Auditor.lng auditor) ->
  forall f : t,
    updateAuditor auditor f = f
    /\ forall before after : list Auditor.t,
         updateRouteTrails (before ++ auditor :: after) f
         = updateRouteTrails (before ++ after) f.
Proof.
  intros Hzero.
  assert (forall g, updateAuditor auditor g = g) as Hskip.
  { intros g. unfold updateAuditor.
    destruct Hzero as [H|H]; apply truthy_zero in H; rewrite H;
      [done | by rewrite andb_false_r]. }
  intros f. split; [apply Hskip|].
  intros before after. unfold updateRouteTrails.
  rewrite !foldl_app. cbn [foldl]. by rewrite Hskip.
Qed.

Lemma trail_zero_coordinate_skipped_witness :
  present (Auditor.lat equator_auditor)
  /\ present (Auditor.lng equator_auditor)
  /\ (is_zero (Auditor.lat equator_auditor)
      \/ is_zero (Auditor.lng equator_auditor))
  /\ updateAuditor equator_auditor kochi_trail = kochi_trail
  /\ updateRouteTrails ([kochi_auditor] ++ equator_auditor :: [])
       Features.constructor
     = updateRouteTrails ([kochi_auditor] ++ []) Features.constructor.
Proof.
  assert (is_zero (Auditor.lat equator_auditor)
          \/ is_zero (Auditor.lng equator_auditor)) as Hzero
    by (left; reflexivity).
  split; [exact I|]. split; [exact I|]. split; [exact Hzero|].
  split.
  - apply (trail_zero_coordinate_skipped equator_auditor Hzero kochi_trail).
  - apply (proj2 (trail_zero_coordinate_skipped equator_auditor Hzero
                    Features.constructor) [kochi_auditor] []).
Defined.

End Trails.


(** ** More on the multi-attempt acquisition *)

Section AcquisitionBounds.
Import Geo Scenario.

Lemma keep_best_from best p b :
  keep_best best p = Some b -> b = p \/ best = Some b.
Proof.
  destruct best as [b0|]; cbn; [destruct (Js.lt _ _)|]; intros [= <-]; eauto.
Qed.

Lemma tryGetLocation_requests_gt script : forall best attempts req del,
  (req < requests (tryGetLocation script best attempts req del))%nat.
Proof.
  induction script as [|[q|e] script IH]; intros best attempts req del.
  - cbn. lia.
  - cbn [tryGetLocation]. destruct (Qle_bool _ _ || _); [cbn; lia|].
    specialize (IH (keep_best best q) (S attempts) (S req) (S del)). lia.
  - cbn. destruct best; cbn; lia.
Qed.

(** A resolved run hands back the sample it started with or one of the
    answers it consumed; [requests run - req] is the number consumed. *)
Lemma tryGetLocation_resolved_from script : forall best attempts req del p,
  let run := tryGetLocation script best attempts req del in
  outcome run = Resolved p ->
  best = Some p \/ GeoSuccess p ∈ take (requests run - req) script.
Proof.
  induction script as [|[q|e] script IH]; intros best attempts req del p run H;
    subst run.
  - discriminate.
  - cbn [tryGetLocation] in *.
    destruct (Qle_bool _ _ || _).
    + cbn in *. injection H as <-.
      replace (S req - req)%nat with 1%nat by lia.
      destruct best as [b|]; cbn; [by left | right; apply list_elem_of_here].
    + pose proof (tryGetLocation_requests_gt script (keep_best best q)
                    (S attempts) (S req) (S del)) as Hgt.
      apply IH in H as [H|H].
      * apply keep_best_from in H as [->|H]; [right|by left].
        destruct (requests _ - req)%nat as [|n] eqn:Hn; [lia|].
        apply list_elem_of_here.
      * right.
        replace (requests (tryGetLocation script (keep_best best q)
                             (S attempts) (S req) (S del)) - req)%nat
          with (S (requests (tryGetLocation script (keep_best best q)
                              (S attempts) (S req) (S del)) - S req))
          by lia.
        cbn [take]. by apply list_elem_of_further.
  - cbn in H. destruct best as [b|]; [|discriminate].
    cbn in H. injection H as <-. by left.
Qed.

(** X1. A resolved acquisition resolves with one of the positions the
    platform delivered to it: a successful answer to one of the requests it
    actually issued, that is, one among the first [requests] answers of the
    script. Answers the platform would have given to requests that were
    never made are never the result. *)
Theorem ultra_resolves_with_a_delivered_position
    (script : list GeoOutcome) (p : Position) :
  let run := getCurrentLocationUltraAccuracy script in
  outcome run = Resolved p ->
  GeoSuccess p ∈ take (requests run) script.
Proof.
  intros run H. subst run. unfold getCurrentLocationUltraAccuracy in *.
  apply tryGetLocation_resolved_from in H as [H|H]; [done|].
  by rewrite Nat.sub_0_r in H.
Qed.

Lemma ultra_resolves_with_a_delivered_position_witness :
  let script :=
    [GeoSuccess (sample 300); GeoFailure timeout_error;
     GeoSuccess (sample 5)] in
  outcome (getCurrentLocationUltraAccuracy script) = Resolved (sample 300)
  /\ requests (getCurrentLocationUltraAccuracy script) = 2%nat
  /\ GeoSuccess (sample 300)
       ∈ take (requests (getCurrentLocationUltraAccuracy script)) script.
Proof.
  intros script.
  assert (outcome (getCurrentLocationUltraAccuracy script)
          = Resolved (sample 300)) as H by (vm_compute; reflexivity).
  split; [exact H|]. split; [reflexivity|].
  exact (ultra_resolves_with_a_delivered_position script (sample 300) H).
Defined.

Lemma tryGetLocation_budget script : forall best attempts req del,
  (attempts < maxAttempts)%nat ->
  let run := tryGetLocation script best attempts req del in
  (req < requests run)%nat
  /\ (requests run + attempts <= req + maxAttempts)%nat
  /\ (delays run + req + 1 = requests run + del)%nat.
Proof.
  induction script as [|[q|e] script IH]; intros best attempts req del Hlt run;
    subst run.
  - cbn. lia.
  - cbn [tryGetLocation].
    destruct (Qle_bool _ _ || _) eqn:Hstop; [cbn; lia|].
    apply orb_false_iff in Hstop as [_ Hmax]. apply Nat.leb_gt in Hmax.
    specialize (IH (keep_best best q) (S attempts) (S req) (S del) Hmax).
    cbn zeta in IH. lia.
  - cbn. destruct best; cbn; lia.
Qed.

(** X2. Whatever the platform answers, an acquisition issues at least one
    and at most [maxAttempts] (three) position requests, and schedules
    exactly one retry delay between consecutive requests. *)
Theorem ultra_request_budget (script : list GeoOutcome) :
  let run := getCurrentLocationUltraAccuracy script in
  (1 <= requests run <= maxAttempts)%nat
  /\ (delays run + 1 = requests run)%nat.
Proof.
  intros run. subst run. unfold getCurrentLocationUltraAccuracy.
  destruct (tryGetLocation_budget script None 0%nat 0%nat 0%nat)
    as (H1 & H2 & H3); [unfold maxAttempts; lia|].
  lia.
Qed.

Lemma tryGetLocation_retained_never_rejects script :
  forall best attempts req del e,
  is_Some best ->
  outcome (tryGetLocation script best attempts req del) <> Rejected e.
Proof.
  induction script as [|[q|e'] script IH]; intros best attempts req del e Hb.
  - discriminate.
  - cbn [tryGetLocation]. destruct (Qle_bool _ _ || _); [discriminate|].
    apply IH, keep_best_is_Some.
  - destruct Hb as [b ->]. discriminate.
Qed.

(** X3. An acquisition rejects only when its very first request fails,
    and then with that failure: once a position has been obtained, later
    failures never reject the promise. *)
Theorem ultra_rejects_only_on_first_request
    (script : list GeoOutcome) (e : PositionError) :
  outcome (getCurrentLocationUltraAccuracy script) = Rejected e ->
  requests (getCurrentLocationUltraAccuracy script) = 1%nat
  /\ exists rest, script = GeoFailure e :: rest.
Proof.
  unfold getCurrentLocationUltraAccuracy.
  destruct script as [|[q|e'] script]; [discriminate| |].
  - cbn [tryGetLocation]. destruct (Qle_bool _ _ || _); [discriminate|].
    intros H. by apply tryGetLocation_retained_never_rejects in H.
  - cbn. intros [= ->]. eauto.
Qed.

Lemma ultra_rejects_only_on_first_request_witness :
  outcome (getCurrentLocationUltraAccuracy
             [GeoFailure timeout_error; GeoSuccess (sample 15)])
    = Rejected timeout_error
  /\ requests (getCurrentLocationUltraAccuracy
                 [GeoFailure timeout_error; GeoSuccess (sample 15)]) = 1%nat
  /\ exists rest,
       [GeoFailure timeout_error; GeoSuccess (sample 15)]
       = GeoFailure timeout_error :: rest.
Proof.
  assert (outcome (getCurrentLocationUltraAccuracy
                     [GeoFailure timeout_error; GeoSuccess (sample 15)])
          = Rejected timeout_error) as H by (vm_compute; reflexivity).
  split; [exact H|].
  apply (ultra_rejects_only_on_first_request
           [GeoFailure timeout_error; GeoSuccess (sample 15)] timeout_error H).
Defined.

Lemma tryGetLocation_settled_prefix script : forall best attempts req del more,
  outcome (tryGetLocation script best attempts req del) <> Pending ->
  tryGetLocation (script ++ more) best attempts req del
  = tryGetLocation script best attempts req del.
Proof.
  induction script as [|[q|e] script IH]; intros best attempts req del more H.
  - by destruct H.
  - cbn [app tryGetLocation] in *.
    destruct (Qle_bool _ _ || _); [done|]. by apply IH.
  - reflexivity.
Qed.

(** X4. Once the promise has settled, answers the platform might still
    deliver are never requested: a script extended beyond the settling
    answer gives the same result, request count and delay count. *)
Theorem ultra_ignores_answers_after_settling
    (script more : list GeoOutcome) :
  outcome (getCurrentLocationUltraAccuracy script) <> Pending ->
  getCurrentLocationUltraAccuracy (script ++ more)
  = getCurrentLocationUltraAccuracy script.
Proof. apply tryGetLocation_settled_prefix. Qed.

Lemma ultra_ignores_answers_after_settling_witness :
  outcome (getCurrentLocationUltraAccuracy [GeoSuccess (sample 15)]) <> Pending
  /\ getCurrentLocationUltraAccuracy
       ([GeoSuccess (sample 15)] ++ [GeoSuccess (sample 5)])
     = getCurrentLocationUltraAccuracy [GeoSuccess (sample 15)].
Proof.
  assert (outcome (getCurrentLocationUltraAccuracy [GeoSuccess (sample 15)])
          <> Pending) as H by (vm_compute; discriminate).
  split; [exact H|].
  apply (ultra_ignores_answers_after_settling
           [GeoSuccess (sample 15)] [GeoSuccess (sample 5)] H).
Defined.

Lemma keep_best_coarse best p b :
  coarse p -> (forall b0, best = Some b0 -> coarse b0) ->
  keep_best best p = Some b -> coarse b.
Proof.
  intros Hp Hbest H. apply keep_best_from in H as [->|H]; [done|by apply Hbest].
Qed.

Lemma tryGetLocation_resolved_coarse script : forall best attempts req del p b0,
  best = Some b0 -> coarse b0 ->
  outcome (tryGetLocation script best attempts req del) = Resolved p ->
  coarse p.
Proof.
  induction script as [|[q|e] script IH];
    intros best attempts req del p b0 -> Hb0 H.
  - discriminate.
  - cbn [tryGetLocation] in H.
    destruct (Qle_bool (accuracy (coords q)) 20) eqn:Hq.
    + cbn in H. by injection H as <-.
    + cbn [orb] in H. destruct (maxAttempts <=? S attempts)%nat.
      * cbn in H. by injection H as <-.
      * destruct (keep_best (Some b0) q) as [b1|] eqn:Hk.
        -- eapply IH; [reflexivity| |exact H].
           eapply keep_best_coarse; [exact Hq| |exact Hk].
           by intros ? [= <-].
        -- by destruct (keep_best_is_Some (Some b0) q) as [? ?]; congruence.
  - cbn in H. by injection H as <-.
Qed.

(** X5. A position resolved after two or three requests is never within
    the 20m target: the promise resolves with a sample of accuracy 20m or
    better only when the very first answer is that accurate. *)
Theorem ultra_later_resolution_is_coarse
    (script : list GeoOutcome) (p : Position) :
  outcome (getCurrentLocationUltraAccuracy script) = Resolved p ->
  (2 <= requests (getCurrentLocationUltraAccuracy script))%nat ->
  (20 < accuracy (coords p))%Q.
Proof.
  unfold getCurrentLocationUltraAccuracy.
  destruct script as [|[q|e] script]; [discriminate| |discriminate].
  cbn [tryGetLocation].
  destruct (Qle_bool (accuracy (coords q)) 20) eqn:Hq; [cbn; lia|].
  cbn [orb]. change (maxAttempts <=? 1)%nat with false. cbn [keep_best].
  intros H _. apply (tryGetLocation_resolved_coarse _ _ _ _ _ _ q) in H;
    [|reflexivity|exact Hq].
  apply Qnot_le_lt. intros Hle. apply Qle_bool_iff in Hle.
  unfold coarse in H. congruence.
Qed.

Lemma ultra_later_resolution_is_coarse_witness :
  outcome (getCurrentLocationUltraAccuracy
             [GeoSuccess (sample 300); GeoSuccess (sample 15)])
    = Resolved (sample 300)
  /\ (2 <= requests (getCurrentLocationUltraAccuracy
                      [GeoSuccess (sample 300); GeoSuccess (sample 15)]))%nat
  /\ (20 < accuracy (coords (sample 300)))%Q.
Proof.
  assert (outcome (getCurrentLocationUltraAccuracy
                     [GeoSuccess (sample 300); GeoSuccess (sample 15)])
          = Resolved (sample 300)) as H by (vm_compute; reflexivity).
  assert (2 <= requests (getCurrentLocationUltraAccuracy
                           [GeoSuccess (sample 300); GeoSuccess (sample 15)]))%nat
    as Hr by (vm_compute; lia).
  split; [exact H|]. split; [exact Hr|].
  apply (ultra_later_resolution_is_coarse
           [GeoSuccess (sample 300); GeoSuccess (sample 15)] (sample 300) H Hr).
Defined.

End AcquisitionBounds.


(** ** More on the tracking controller *)

Section Frame.
Import Js Geo Tracker Terms.
Context {X : Type} (observe : World -> X).

Lemma keeps_ret {A} (a : A) : keeps observe (ret a).
Proof. by intros w. Qed.

Lemma keeps_throw {A} e : keeps observe (@throw A e).
Proof. by intros w. Qed.

Lemma keeps_suspend {A} : keeps observe (@suspend A).
Proof. by intros w. Qed.

Lemma keeps_get : keeps observe get.
Proof. by intros w. Qed.

Lemma keeps_bind {A B} (m : M A) (k : A -> M B) :
  keeps observe m -> (forall a, keeps observe (k a)) ->
  keeps observe (bind m k).
Proof.
  intros Hm Hk w. unfold bind. specialize (Hm w).
  destruct (m w) as [[a|e|] w']; cbn in *; [|done..].
  by rewrite Hk.
Qed.

Lemma keeps_try_catch body handler :
  keeps observe body -> (forall e, keeps observe (handler e)) ->
  keeps observe (try_catch body handler).
Proof.
  intros Hb Hh w. unfold try_catch. specialize (Hb w).
  destruct (body w) as [[a|e|] w']; cbn in *; [done| |done].
  by rewrite Hh.
Qed.

Lemma keeps_when b m : keeps observe m -> keeps observe (when b m).
Proof. destruct b; [done|]. intros _. apply keeps_ret. Qed.

End Frame.

Section ControllerMore.
Import Js Geo Tracker Scenario Terms.

(** *** What the primitives leave alone *)

Lemma keeps_history_emit e : keeps history (emit e).
Proof. by intros w. Qed.

Lemma keeps_history_watchPosition id : keeps history (watchPosition id).
Proof. by intros w. Qed.

Lemma keeps_history_clearWatch id : keeps history (clearWatch id).
Proof. by intros w. Qed.

Lemma keeps_history_modify f :
  (forall t, locationHistory (f t) = locationHistory t) ->
  keeps history (modify f).
Proof. intros H w. apply H. Qed.

Lemma keeps_await_position {X} (observe : World -> X) r :
  keeps observe (await_position r).
Proof. unfold await_position. by destruct (outcome r). Qed.

Lemma keeps_await_fetch {X} (observe : World -> X) answer :
  keeps observe (await_fetch answer).
Proof. by destruct answer. Qed.

Lemma keeps_control_emit e : keeps control (emit e).
Proof. by intros w. Qed.

Lemma keeps_control_modify f :
  (forall t, watchId (f t) = watchId t /\ isTracking (f t) = isTracking t
             /\ sessionId (f t) = sessionId t) ->
  keeps control (modify f).
Proof.
  intros H w. unfold control. cbn.
  destruct (H (this w)) as (-> & -> & ->). reflexivity.
Qed.

Lemma keeps_sendLocationUpdate {X} (observe : World -> X) position answer :
  (forall e, keeps observe (emit e)) ->
  keeps observe (sendLocationUpdate position answer).
Proof.
  intros He. unfold sendLocationUpdate.
  apply keeps_bind; [apply keeps_get|]. intros w.
  apply keeps_bind; [apply He|]. intros _.
  apply keeps_bind; [apply keeps_await_fetch|]. intros result.
  destruct (negb (success result)); [apply keeps_throw | apply keeps_ret].
Qed.

Lemma startTracking_keeps_history env : keeps history (startTracking env).
Proof.
  unfold startTracking. apply keeps_try_catch.
  - apply keeps_bind; [apply keeps_await_position|]. intros position.
    apply keeps_bind.
    { unfold startTrackingSession.
      apply keeps_bind; [apply keeps_history_emit|]. intros _.
      apply keeps_await_fetch. }
    intros sessionResponse.
    apply keeps_bind; [apply keeps_when, keeps_throw|]. intros _.
    apply keeps_bind; [by apply keeps_history_modify|]. intros _.
    apply keeps_bind; [by apply keeps_history_modify|]. intros _.
    apply keeps_bind; [apply keeps_history_watchPosition|]. intros id.
    apply keeps_bind; [by apply keeps_history_modify|]. intros _.
    apply keeps_bind;
      [apply keeps_sendLocationUpdate, keeps_history_emit|]. intros _.
    apply keeps_bind; [|intros _; apply keeps_history_emit].
    unfold updateTrackingUI.
    apply keeps_bind; [apply keeps_get|]. intros w. apply keeps_history_emit.
  - intros e. apply keeps_bind; [apply keeps_history_emit|]. intros _.
    by apply keeps_history_modify.
Qed.

Lemma stopTracking_keeps_history answer : keeps history (stopTracking answer).
Proof.
  unfold stopTracking. apply keeps_try_catch.
  - apply keeps_bind; [apply keeps_get|]. intros w.
    apply keeps_bind.
    { destruct (watchId (this w)) as [id|]; [|apply keeps_ret].
      apply keeps_when, keeps_bind; [apply keeps_history_clearWatch|].
      intros _. by apply keeps_history_modify. }
    intros _. apply keeps_bind; [apply keeps_get|]. intros w'.
    apply keeps_bind.
    { apply keeps_when, keeps_bind; [|intros _; apply keeps_ret].
      unfold stopTrackingSession.
      apply keeps_bind; [apply keeps_get|]. intros w''.
      apply keeps_bind; [apply keeps_history_emit|]. intros _.
      apply keeps_await_fetch. }
    intros _.
    apply keeps_bind; [by apply keeps_history_modify|]. intros _.
    apply keeps_bind; [by apply keeps_history_modify|]. intros _.
    apply keeps_bind; [by apply keeps_history_modify|]. intros _.
    apply keeps_bind; [|intros _; apply keeps_history_emit].
    unfold updateTrackingUI.
    apply keeps_bind; [apply keeps_get|]. intros w''. apply keeps_history_emit.
  - intros e. apply keeps_history_emit.
Qed.

Lemma onLocationError_keeps_history error :
  keeps history (onLocationError error).
Proof.
  unfold onLocationError. destruct (code error =? 3); [apply keeps_ret|].
  apply keeps_bind.
  { destruct (code error) as [|[[]|[]|]|]; try apply keeps_ret.
    apply keeps_bind; [by apply keeps_history_modify|]. intros _.
    apply keeps_ret. }
  intros texts. apply keeps_bind; [apply keeps_history_emit|]. intros _.
  apply keeps_when. unfold updateTrackingUI.
  apply keeps_bind; [apply keeps_get|]. intros w. apply keeps_history_emit.
Qed.

(** X6. The location history is changed by watch updates only:
    [startTracking], [stopTracking] and [onLocationError] leave it as it is
    on every path, so the entries of one session are still there after the
    session is stopped and when the next one starts. *)
Theorem history_changes_only_on_updates :
  (forall env, keeps history (startTracking env))
  /\ (forall answer, keeps history (stopTracking answer))
  /\ (forall error, keeps history (onLocationError error)).
Proof.
  split; [exact startTracking_keeps_history|].
  split; [exact stopTracking_keeps_history|exact onLocationError_keeps_history].
Qed.

(** The world one tracked watch update leaves. *)
Lemma onLocationUpdate_tracking w position now answer :
  isTracking (this w) = true ->
  exec (onLocationUpdate position now answer) w
  = {| this :=
         (if stored answer then set_lastUpdate (Some now) else fun t => t)
           (set_locationHistory (appended (locationHistory (this w)) position)
                                (this w));
       watches := watches w;
       effects :=
         effects w
         ++ PostLocationUpdate position (sessionId (this w))
            :: (if stored answer then [UpdateLocationDisplay position] else [])
    |}.
Proof.
  destruct w as [[wid trk ses lu hist] ws effs]. cbn [this isTracking].
  intros ->. unfold exec, onLocationUpdate, bind, get. cbn [this isTracking negb].
  unfold modify at 1. cbn [this watches effects set_locationHistory
    locationHistory watchId isTracking sessionId lastUpdate].
  fold (entry_of position). unfold when, appended.
  destruct (10 <? length (hist ++ [entry_of position]))%nat;
    destruct answer as [[[] sid err]|reason]; cbn; by rewrite <- ?app_assoc.
Qed.

Lemma appended_bounded h position :
  (length (appended h position) <= 10)%nat
  /\ last (appended h position) = Some (entry_of position)
  /\ appended h position `suffix_of` h ++ [entry_of position].
Proof.
  unfold appended, slice_last.
  destruct (Nat.ltb_spec 10 (length (h ++ [entry_of position]))) as [Hlt|Hge].
  - rewrite length_drop. split; [lia|]. split; [|apply suffix_drop].
    rewrite length_app in *. cbn [length] in *.
    rewrite drop_app_le by lia. apply last_snoc.
  - split; [lia|]. split; [apply last_snoc|done].
Qed.

(** X7. A watch update delivered while tracking leaves a history of at
    most ten entries whose newest entry is the delivered position and which
    is a suffix of the old history extended by that entry: only the oldest
    entries are dropped. *)
Theorem update_history_bounded
    (w : World) (position : Position) (now : Z) (answer : Fetched) :
  isTracking (this w) = true ->
  let w' := exec (onLocationUpdate position now answer) w in
  (length (history w') <= 10)%nat
  /\ last (history w') = Some (entry_of position)
  /\ history w' `suffix_of` history w ++ [entry_of position].
Proof.
  intros H w'. subst w'. rewrite onLocationUpdate_tracking by done.
  unfold history. cbn [this].
  assert (forall t, locationHistory
            ((if stored answer then set_lastUpdate (Some now) else fun t => t) t)
          = locationHistory t) as -> by (intros t; by destruct (stored answer)).
  apply appended_bounded.
Qed.

Lemma update_history_bounded_witness :
  isTracking (this tracked_world) = true
  /\ (let w' := exec (onLocationUpdate (sample 40) 1700000060000
                       (FetchFails "Failed to fetch")) tracked_world in
      (length (history w') <= 10)%nat
      /\ last (history w') = Some (entry_of (sample 40))
      /\ history w' `suffix_of` history tracked_world ++ [entry_of (sample 40)]).
Proof.
  assert (isTracking (this tracked_world) = true) as H by reflexivity.
  split; [exact H|].
  apply (update_history_bounded tracked_world (sample 40) 1700000060000
           (FetchFails "Failed to fetch") H).
Defined.

(** X8. A watch update never changes whether the controller is tracking:
    [watchId], [isTracking], [sessionId] and the platform's subscriptions
    stay as they are, and no toast is shown. When the controller is not
    tracking the update is dropped altogether (nothing is reported). When
    it is tracking, exactly one report is sent under the current session
    id; the display is refreshed and [lastUpdate] set only if the collector
    stored the report, and a failed report changes nothing else. *)
Theorem update_reports_without_touching_control
    (w : World) (position : Position) (now : Z) (answer : Fetched) :
  let w' := exec (onLocationUpdate position now answer) w in
  control w' = control w
  /\ (isTracking (this w) = false -> w' = w)
  /\ (isTracking (this w) = true ->
      effects w'
      = effects w
        ++ PostLocationUpdate position (sessionId (this w))
           :: (if stored answer then [UpdateLocationDisplay position] else [])
      /\ lastUpdate (this w')
         = if stored answer then Some now else lastUpdate (this w)).
Proof.
  intros w'. subst w'.
  destruct (isTracking (this w)) eqn:Htrk.
  - rewrite onLocationUpdate_tracking by done.
    split; [|split; [done|intros _; split; [done|]]].
    + destruct w as [[wid trk ses lu hist] ws effs]. cbn in Htrk. subst trk.
      by destruct (stored answer).
    + cbn [this]. by destruct (stored answer).
  - assert (exec (onLocationUpdate position now answer) w = w) as ->.
    { unfold exec, onLocationUpdate, bind, get. by rewrite Htrk. }
    by repeat split.
Qed.

Lemma update_reports_without_touching_control_witness :
  isTracking (this (exec (onLocationError denied_error) active_world)) = false
  /\ exec (onLocationUpdate (sample 40) 1700000060000 (Json done_ok))
          (exec (onLocationError denied_error) active_world)
     = exec (onLocationError denied_error) active_world.
Proof.
  assert (isTracking (this (exec (onLocationError denied_error) active_world))
          = false) as H by reflexivity.
  split; [exact H|].
  apply (proj1 (proj2 (update_reports_without_touching_control
                         (exec (onLocationError denied_error) active_world)
                         (sample 40) 1700000060000 (Json done_ok))) H).
Defined.

(** X9. Every watch error other than PERMISSION_DENIED is non-fatal: the
    tracker object and the platform's subscriptions are unchanged. A
    TIMEOUT is silent; POSITION_UNAVAILABLE and unknown codes show one
    error toast. *)
Theorem watch_error_other_than_denied_is_not_fatal
    (w : World) (error : PositionError) :
  code error <> PERMISSION_DENIED ->
  let w' := exec (onLocationError error) w in
  this w' = this w
  /\ watches w' = watches w
  /\ effects w'
     = effects w
       ++ (if code error =? TIMEOUT then []
           else if code error =? POSITION_UNAVAILABLE
                then [ShowError "Location unavailable. Check GPS signal and internet connection."]
                else [ShowError "Unknown location error"]).
Proof.
  intros Hcode w'. subst w'. unfold exec, onLocationError.
  unfold PERMISSION_DENIED, TIMEOUT, POSITION_UNAVAILABLE in *.
  destruct w as [t ws effs].
  destruct (code error) as [|[[]|[]|]|]; cbn; try done;
    by rewrite ?app_nil_r.
Qed.

Lemma watch_error_other_than_denied_is_not_fatal_witness :
  code timeout_error <> PERMISSION_DENIED
  /\ (let w' := exec (onLocationError timeout_error) tracked_world in
      this w' = this tracked_world
      /\ watches w' = watches tracked_world
      /\ effects w'
         = effects tracked_world
           ++ (if code timeout_error =? TIMEOUT then []
               else if code timeout_error =? POSITION_UNAVAILABLE
                    then [ShowError "Location unavailable. Check GPS signal and internet connection."]
                    else [ShowError "Unknown location error"])).
Proof.
  assert (code timeout_error <> PERMISSION_DENIED) as H by discriminate.
  split; [exact H|].
  apply (watch_error_other_than_denied_is_not_fatal tracked_world
           timeout_error H).
Defined.

(** The world a start leaves when every step succeeds, from any state. *)
Lemma startTracking_success_world w env position body :
  outcome (getCurrentLocationUltraAccuracy (geoScript env))
    = Resolved position ->
  sessionAnswer env = Json body ->
  success body = true ->
  stored (reportAnswer env) = true ->
  exec (startTracking env) w
  = {| this := set_watchId (Some (newWatchId env))
                 (set_isTracking true
                    (set_sessionId (session_id body) (this w)));
       watches := watches w ++ [newWatchId env];
       effects :=
         effects w
         ++ [PostStartTracking;
             PostLocationUpdate position (session_id body);
             UpdateTrackingUI true;
             ShowSuccess "High-precision tracking started! 🎯"] |}.
Proof.
  intros Hgeo Hsession Hsuccess Hreport.
  unfold exec, startTracking, try_catch, bind, await_position,
    startTrackingSession, sendLocationUpdate, await_fetch.
  rewrite Hgeo, Hsession. cbn. rewrite Hsuccess. cbn.
  destruct (reportAnswer env) as [rbody|reason]; [|discriminate].
  cbn in Hreport. cbn. rewrite Hreport. cbn.
  by rewrite <- !app_assoc.
Qed.

(** The world a stop leaves when the controller holds a usable watch id and
    session id and the notification is answered. *)
Lemma stopTracking_answered_world w id s body :
  watchId (this w) = Some id -> id <> 0 ->
  sessionId (this w) = Some s -> s <> EmptyString ->
  exec (stopTracking (Json body)) w
  = {| this := set_lastUpdate None
                 (set_sessionId None
                    (set_isTracking false (set_watchId None (this w))));
       watches := filter (fun x => x <> id) (watches w);
       effects :=
         effects w
         ++ [PostStopTracking (Some s); UpdateTrackingUI false;
             ShowSuccess "Location tracking stopped 🛑"] |}.
Proof.
  intros Hid Hnz Hsid Hne.
  destruct w as [[wid trk ses lu hist] ws effs]. cbn in Hid, Hsid. subst.
  assert ((s =? EmptyString)%string = false) as Hs
    by (by apply String.eqb_neq).
  assert ((id =? 0) = false) as Hz by (by apply Z.eqb_neq).
  unfold exec, stopTracking, try_catch, bind, get, truthy_id.
  cbn [this watchId]. rewrite Hz. cbn -[filter]. rewrite Hs. cbn -[filter].
  by rewrite <- !app_assoc.
Qed.

(** X10. When every step succeeds (a fix is obtained, the session is
    accepted under a non-empty id, the platform hands out a non-zero watch
    id and the initial report is stored), [startTracking] takes the Idle
    controller to the Active state with that session id and watch id. The
    session request comes first, the initial fix is reported under the new
    session id, and the fix is not entered into the location history. *)
Theorem start_success_becomes_active
    (w : World) (env : StartEnv) (position : Position) (body : ApiResponse)
    (s : string) :
  Idle w ->
  outcome (getCurrentLocationUltraAccuracy (geoScript env))
    = Resolved position ->
  sessionAnswer env = Json body ->
  accepts body s ->
  newWatchId env <> 0 ->
  stored (reportAnswer env) = true ->
  let w' := exec (startTracking env) w in
  Active w'
  /\ sessionId (this w') = Some s
  /\ watchId (this w') = Some (newWatchId env)
  /\ history w' = history w
  /\ effects w'
     = effects w
       ++ [PostStartTracking; PostLocationUpdate position (Some s);
           UpdateTrackingUI true;
           ShowSuccess "High-precision tracking started! 🎯"].
Proof.
  intros (_ & _ & _ & Hws) Hgeo Hsession (Hsuccess & Hsid & Hne) Hnz Hreport w'.
  subst w'.
  rewrite (startTracking_success_world w env position body) by done.
  rewrite Hsid, Hws. cbn. repeat split; eauto.
Qed.

Lemma start_success_becomes_active_witness :
  Idle boot
  /\ outcome (getCurrentLocationUltraAccuracy (geoScript smooth_start))
     = Resolved (sample 15)
  /\ sessionAnswer smooth_start = Json accepted
  /\ accepts accepted "s1"
  /\ newWatchId smooth_start <> 0
  /\ stored (reportAnswer smooth_start) = true
  /\ (let w' := exec (startTracking smooth_start) boot in
      Active w'
      /\ sessionId (this w') = Some "s1"
      /\ watchId (this w') = Some (newWatchId smooth_start)
      /\ history w' = history boot
      /\ effects w'
         = effects boot
           ++ [PostStartTracking; PostLocationUpdate (sample 15) (Some "s1");
               UpdateTrackingUI true;
               ShowSuccess "High-precision tracking started! 🎯"]).
Proof.
  assert (Idle boot) as H1 by (by repeat split).
  assert (outcome (getCurrentLocationUltraAccuracy (geoScript smooth_start))
          = Resolved (sample 15)) as H2 by (vm_compute; reflexivity).
  assert (sessionAnswer smooth_start = Json accepted) as H3 by reflexivity.
  assert (accepts accepted "s1") as H4.
  { split; [reflexivity|]. split; [reflexivity|discriminate]. }
  assert (newWatchId smooth_start <> 0) as H5 by discriminate.
  assert (stored (reportAnswer smooth_start) = true) as H6 by reflexivity.
  split; [exact H1|]. split; [exact H2|]. split; [exact H3|].
  split; [exact H4|]. split; [exact H5|]. split; [exact H6|].
  apply (start_success_becomes_active boot smooth_start (sample 15) accepted
           "s1" H1 H2 H3 H4 H5 H6).
Defined.


(** X12. [stopTracking] on the Idle controller sends nothing to the session
    endpoint and leaves the controller Idle; it still refreshes the UI and
    shows the success toast. *)
Theorem stop_when_idle_sends_nothing (w : World) (answer : Fetched) :
  Idle w ->
  let w' := exec (stopTracking answer) w in
  Idle w'
  /\ history w' = history w
  /\ effects w'
     = effects w
       ++ [UpdateTrackingUI false; ShowSuccess "Location tracking stopped 🛑"].
Proof.
  intros (Htrk & Hwid & Hsid & Hws) w'. subst w'.
  destruct w as [[wid trk ses lu hist] ws effs]. cbn in *. subst.
  unfold exec, stopTracking, try_catch, bind, get. cbn.
  by rewrite <- !app_assoc.
Qed.

Lemma stop_when_idle_sends_nothing_witness :
  Idle boot
  /\ (let w' := exec (stopTracking (FetchFails "Failed to fetch")) boot in
      Idle w'
      /\ history w' = history boot
      /\ effects w'
         = effects boot
           ++ [UpdateTrackingUI false;
               ShowSuccess "Location tracking stopped 🛑"]).
Proof.
  assert (Idle boot) as H by (by repeat split).
  split; [exact H|].
  apply (stop_when_idle_sends_nothing boot (FetchFails "Failed to fetch") H).
Defined.

(** X13. A session that starts and is then stopped brings the Idle
    controller back to Idle: the watch registered by the start is the one
    the stop cancels, the session id is cleared, the stop notification names
    the session the start was given, and the history is as before. *)
Theorem start_then_stop_returns_to_idle
    (w : World) (env : StartEnv) (position : Position)
    (body stopBody : ApiResponse) (s : string) :
  Idle w ->
  outcome (getCurrentLocationUltraAccuracy (geoScript env))
    = Resolved position ->
  sessionAnswer env = Json body ->
  accepts body s ->
  newWatchId env <> 0 ->
  stored (reportAnswer env) = true ->
  let w' := exec (stopTracking (Json stopBody)) (exec (startTracking env) w) in
  Idle w'
  /\ history w' = history w
  /\ PostStopTracking (Some s) ∈ effects w'.
Proof.
  intros (_ & _ & _ & Hws) Hgeo Hsession (Hsuccess & Hsid & Hne) Hnz Hreport w'.
  subst w'.
  rewrite (startTracking_success_world w env position body) by done.
  rewrite (stopTracking_answered_world _ (newWatchId env) s stopBody);
    [|done|done|by cbn|done].
  cbn [this watches effects]. rewrite Hws. cbn [app].
  rewrite clearWatch_only. split; [by repeat split|]. split; [done|].
  apply elem_of_app. right. apply list_elem_of_here.
Qed.

Lemma start_then_stop_returns_to_idle_witness :
  Idle boot
  /\ outcome (getCurrentLocationUltraAccuracy (geoScript smooth_start))
     = Resolved (sample 15)
  /\ sessionAnswer smooth_start = Json accepted
  /\ accepts accepted "s1"
  /\ newWatchId smooth_start <> 0
  /\ stored (reportAnswer smooth_start) = true
  /\ (let w' := exec (stopTracking (Json done_ok))
                     (exec (startTracking smooth_start) boot) in
      Idle w'
      /\ history w' = history boot
      /\ PostStopTracking (Some "s1") ∈ effects w').
Proof.
  assert (Idle boot) as H1 by (by repeat split).
  assert (outcome (getCurrentLocationUltraAccuracy (geoScript smooth_start))
          = Resolved (sample 15)) as H2 by (vm_compute; reflexivity).
  assert (sessionAnswer smooth_start = Json accepted) as H3 by reflexivity.
  assert (accepts accepted "s1") as H4.
  { split; [reflexivity|]. split; [reflexivity|discriminate]. }
  assert (newWatchId smooth_start <> 0) as H5 by discriminate.
  assert (stored (reportAnswer smooth_start) = true) as H6 by reflexivity.
  split; [exact H1|]. split; [exact H2|]. split; [exact H3|].
  split; [exact H4|]. split; [exact H5|]. split; [exact H6|].
  apply (start_then_stop_returns_to_idle boot smooth_start (sample 15)
           accepted done_ok "s1" H1 H2 H3 H4 H5 H6).
Defined.

(** X14. [startTracking] does not check that the controller is Idle. Run
    again on the Active controller, a successful start registers a second
    watch while the platform still holds the first, and the controller
    remembers only the new id. The following [stopTracking] cancels the new
    watch alone: the controller then reports not tracking with no watch id,
    while the platform still holds the first subscription. *)
Theorem restart_while_active_leaks_watch
    (w : World) (env : StartEnv) (position : Position)
    (body stopBody : ApiResponse) (s : string) (id : Z) :
  Active w ->
  watchId (this w) = Some id ->
  outcome (getCurrentLocationUltraAccuracy (geoScript env))
    = Resolved position ->
  sessionAnswer env = Json body ->
  accepts body s ->
  newWatchId env <> 0 ->
  newWatchId env <> id ->
  stored (reportAnswer env) = true ->
  let w1 := exec (startTracking env) w in
  let w2 := exec (stopTracking (Json stopBody)) w1 in
  watches w1 = [id; newWatchId env]
  /\ watchId (this w1) = Some (newWatchId env)
  /\ isTracking (this w2) = false
  /\ watchId (this w2) = None
  /\ watches w2 = [id].
Proof.
  intros (_ & (id' & Hid' & _ & Hws) & _) Hid Hgeo Hsession
    (Hsuccess & Hsid & Hne) Hnz Hfresh Hreport w1 w2.
  rewrite Hid in Hid'. injection Hid' as <-. subst w2 w1.
  rewrite (startTracking_success_world w env position body) by done.
  rewrite (stopTracking_answered_world _ (newWatchId env) s stopBody);
    [|done|done|by cbn|done].
  cbn [this watches effects]. rewrite Hws. cbn [app].
  repeat split; try done.
  rewrite filter_cons, decide_True by done.
  by rewrite clearWatch_only.
Qed.

Lemma restart_while_active_leaks_watch_witness :
  Active active_world
  /\ watchId (this active_world) = Some 1
  /\ (let env :=
        {| geoScript := [GeoSuccess (sample 15)];
           sessionAnswer := Json accepted;
           newWatchId := 2;
           reportAnswer := Json done_ok |} in
      let w1 := exec (startTracking env) active_world in
      let w2 := exec (stopTracking (Json done_ok)) w1 in
      watches w1 = [1; newWatchId env]
      /\ watchId (this w1) = Some (newWatchId env)
      /\ isTracking (this w2) = false
      /\ watchId (this w2) = None
      /\ watches w2 = [1]).
Proof.
  assert (Active active_world) as H1.
  { vm_compute. split; [reflexivity|]. split.
    - exists 1. split; [reflexivity|]. split; [discriminate | reflexivity].
    - exists "s1". split; [reflexivity | discriminate]. }
  assert (watchId (this active_world) = Some 1) as H2 by reflexivity.
  split; [exact H1|]. split; [exact H2|].
  apply (restart_while_active_leaks_watch active_world
           {| geoScript := [GeoSuccess (sample 15)];
              sessionAnswer := Json accepted;
              newWatchId := 2;
              reportAnswer := Json done_ok |}
           (sample 15) accepted done_ok "s1" 1 H1 H2).
  - vm_compute; reflexivity.
  - reflexivity.
  - split; [reflexivity|]. split; [reflexivity|discriminate].
  - discriminate.
  - discriminate.
  - reflexivity.
Defined.

End ControllerMore.


(** ** More on route trails *)

Section TrailsMore.
Import Js Features Scenario Terms.

(** One entry either leaves the object as it is, or passed the guards and
    stores the pushed trail. *)
Lemma updateAuditor_guarded auditor f :
  let auditorId := Auditor.id auditor in
  let stored := default [] (previousPositions f !! auditorId) in
  updateAuditor auditor f = f
  \/ (located (point_of auditor)
      /\ (forall lastPosition, last stored = Some lastPosition ->
            differ lastPosition (point_of auditor) = true)
      /\ updateAuditor auditor f
         = drawTrail auditorId (pushed stored auditor)
             (set_previousPositions
                (<[auditorId := pushed stored auditor]> (previousPositions f))
                f)).
Proof.
  intros auditorId stored. subst stored auditorId.
  unfold updateAuditor, located, differ, pushed, point_of.
  cbn [TrailPos.lat TrailPos.lng].
  destruct (truthy (Auditor.lat auditor)) eqn:Hlat; [|by left].
  destruct (truthy (Auditor.lng auditor)) eqn:Hlng; [|by left].
  cbn [andb].
  destruct (previousPositions f !! Auditor.id auditor) as [ps|] eqn:Hps.
  - rewrite Hps. cbn [default from_option id].
    destruct (last ps) as [lp|]; [|right].
    + destruct (strict_neq _ _ || strict_neq _ _) eqn:Hd; [right | by left].
      split; [done|]. split; [|done]. by intros ? [= <-].
    + split; [done|]. split; [|done]. by intros ? [=].
  - right. cbn [previousPositions set_previousPositions].
    rewrite lookup_insert_eq. cbn [default from_option id last app].
    split; [done|]. split; [by intros ? [=]|].
    cbn [alerts routes drawn]. by rewrite insert_insert_eq.
Qed.

Lemma drawTrail_previousPositions auditorId positions f :
  previousPositions (drawTrail auditorId positions f) = previousPositions f.
Proof. unfold drawTrail. by destruct (_ <? _)%nat. Qed.

Lemma distinct_neighbours_snoc ps x :
  distinct_neighbours ps ->
  (forall lp, last ps = Some lp -> differ lp x = true) ->
  distinct_neighbours (ps ++ [x]).
Proof.
  intros Hps Hlast i p q Hp Hq.
  destruct (decide (S i < length ps)%nat) as [Hlt|Hge].
  - rewrite lookup_app_l in Hp by lia. rewrite lookup_app_l in Hq by lia.
    by eapply Hps.
  - assert (S i = length ps) as Hi.
    { apply lookup_lt_Some in Hq. rewrite length_app in Hq. cbn in Hq. lia. }
    rewrite lookup_app_l in Hp by lia.
    rewrite lookup_app_r in Hq by lia.
    replace (S i - length ps)%nat with 0%nat in Hq by lia.
    injection Hq as <-. apply Hlast. rewrite last_lookup.
    by replace (pred (length ps)) with i by lia.
Qed.

Lemma distinct_neighbours_tail ps :
  distinct_neighbours ps -> distinct_neighbours (tail ps).
Proof.
  intros Hps i p q Hp Hq. rewrite lookup_tail in Hp, Hq. by eapply Hps.
Qed.

Lemma pushed_ok ps auditor :
  ps = [] \/ trail_ok ps ->
  located (point_of auditor) ->
  (forall lp, last ps = Some lp -> differ lp (point_of auditor) = true) ->
  trail_ok (pushed ps auditor).
Proof.
  intros Hps Hloc Hlast.
  assert ((length ps <= 20)%nat /\ Forall located ps /\ distinct_neighbours ps)
    as (Hlen & Hall & Hadj).
  { destruct Hps as [->|(Hlen & Hall & Hadj)].
    - cbn. split; [lia|]. split; [constructor|]. by intros i p q [=].
    - split; [lia|done]. }
  assert (Forall located (ps ++ [point_of auditor])) as Hall'
    by (apply Forall_app; split; [done|by apply Forall_singleton]).
  assert (distinct_neighbours (ps ++ [point_of auditor])) as Hadj'
    by by apply distinct_neighbours_snoc.
  split; [|split].
  - destruct (pushed_length ps auditor) as [H1 _]. split; [done|].
    unfold pushed.
    destruct (Nat.ltb_spec 20 (length (ps ++ [point_of auditor])))
      as [Hlt|Hge]; [|done].
    destruct ps as [|x l]; cbn [app tail length] in *; [lia|].
    rewrite length_app in *. cbn [length] in *. lia.
  - unfold pushed. destruct (_ <? _)%nat; [|done].
    destruct (ps ++ [point_of auditor]) as [|x l]; [done|].
    cbn. by apply Forall_cons in Hall' as [_ ?].
  - unfold pushed. destruct (_ <? _)%nat; [|done].
    by apply distinct_neighbours_tail.
Qed.

Lemma updateAuditor_trails_ok auditor f :
  trails_ok f -> trails_ok (updateAuditor auditor f).
Proof.
  intros Hinv.
  destruct (updateAuditor_guarded auditor f) as [->|(Hloc & Hlast & ->)];
    [done|].
  intros auditorId ps. rewrite drawTrail_previousPositions.
  cbn [previousPositions set_previousPositions].
  destruct (decide (auditorId = Auditor.id auditor)) as [->|Hne].
  - rewrite lookup_insert_eq. intros [= <-]. apply pushed_ok; [|done..].
    destruct (previousPositions f !! Auditor.id auditor) as [old|] eqn:Hold;
      [right; by eapply Hinv | by left].
  - rewrite lookup_insert_ne by done. apply Hinv.
Qed.

Lemma updateRouteTrails_trails_ok auditors : forall f,
  trails_ok f -> trails_ok (updateRouteTrails auditors f).
Proof.
  induction auditors as [|a auditors IH]; intros f Hinv; [done|].
  cbn. by apply IH, updateAuditor_trails_ok.
Qed.

Lemma update_all_trails_ok snapshots : trails_ok (update_all snapshots).
Proof.
  unfold update_all. induction snapshots as [|s snapshots IH] using rev_ind.
  - intros i ps H. cbn in H. by rewrite lookup_empty in H.
  - rewrite foldl_snoc. by apply updateRouteTrails_trails_ok.
Qed.

(** X15. Over any sequence of [updateRouteTrails] calls, every stored
    trail holds between one and twenty points, every stored point has
    truthy [lat] and [lng], and no point repeats, in both coordinates, the
    point stored just before it. *)
Theorem trails_stay_bounded_and_distinct
    (snapshots : list (list Auditor.t)) (auditorId : string)
    (ps : list TrailPos.t) :
  previousPositions (update_all snapshots) !! auditorId = Some ps ->
  (1 <= length ps <= 20)%nat
  /\ Forall located ps
  /\ distinct_neighbours ps.
Proof. apply update_all_trails_ok. Qed.

Lemma trails_stay_bounded_and_distinct_witness :
  previousPositions (update_all [[kochi_auditor]; [kochi_auditor]]) !! "9"
    = Some [kochi_point]
  /\ (1 <= length [kochi_point] <= 20)%nat
  /\ Forall located [kochi_point]
  /\ distinct_neighbours [kochi_point].
Proof.
  assert (previousPositions (update_all [[kochi_auditor]; [kochi_auditor]])
            !! "9" = Some [kochi_point]) as H by (vm_compute; reflexivity).
  split; [exact H|].
  apply (trails_stay_bounded_and_distinct
           [[kochi_auditor]; [kochi_auditor]] "9" [kochi_point] H).
Defined.

(** An entry that passes the guards is pushed. *)
Lemma updateAuditor_pushes auditor f :
  let auditorId := Auditor.id auditor in
  let stored := default [] (previousPositions f !! auditorId) in
  located (point_of auditor) ->
  (forall lastPosition, last stored = Some lastPosition ->
     differ lastPosition (point_of auditor) = true) ->
  updateAuditor auditor f
  = drawTrail auditorId (pushed stored auditor)
      (set_previousPositions
         (<[auditorId := pushed stored auditor]> (previousPositions f)) f).
Proof.
  intros auditorId stored [Hlat Hlng] Hlast. subst stored auditorId.
  unfold updateAuditor, differ, pushed, point_of in *.
  cbn [TrailPos.lat TrailPos.lng] in *. rewrite Hlat, Hlng. cbn [andb].
  destruct (previousPositions f !! Auditor.id auditor) as [ps|] eqn:Hps.
  - rewrite Hps. cbn [default from_option id] in *.
    destruct (last ps) as [lp|]; [|done].
    by rewrite (Hlast lp eq_refl).
  - cbn [previousPositions set_previousPositions].
    rewrite lookup_insert_eq. cbn [default from_option id last app].
    cbn [alerts routes drawn]. by rewrite insert_insert_eq.
Qed.

(** X16. A full trail evicts its oldest point: when an auditor's stored
    trail holds twenty points and a new, distinct, truthy point arrives, the
    stored trail becomes the old one without its first point followed by
    the new point, and the polyline on the map is redrawn over exactly
    these twenty points. *)
Theorem full_trail_evicts_oldest
    (auditor : Auditor.t) (f : Features.t) (ps : list TrailPos.t) :
  previousPositions f !! Auditor.id auditor = Some ps ->
  length ps = 20%nat ->
  located (point_of auditor) ->
  (forall lastPosition, last ps = Some lastPosition ->
     differ lastPosition (point_of auditor) = true) ->
  let f' := updateAuditor auditor f in
  previousPositions f' !! Auditor.id auditor
    = Some (tail ps ++ [point_of auditor])
  /\ routes f' !! Auditor.id auditor
     = Some (path_of (tail ps ++ [point_of auditor])).
Proof.
  intros Hps Hlen Hloc Hlast f'. subst f'.
  rewrite updateAuditor_pushes; [|done|by rewrite Hps].
  rewrite Hps. cbn [default from_option id].
  assert (pushed ps auditor = tail ps ++ [point_of auditor]) as ->.
  { unfold pushed. rewrite length_app, Hlen. cbn.
    destruct ps; [done|reflexivity]. }
  assert (length (tail ps ++ [point_of auditor]) = 20%nat) as Hlen'.
  { rewrite length_app. destruct ps; cbn in *; lia. }
  unfold drawTrail. rewrite Hlen'. cbn [Nat.ltb Nat.leb].
  cbn [previousPositions routes set_previousPositions].
  by rewrite !lookup_insert_eq.
Qed.

Lemma full_trail_evicts_oldest_witness :
  let ps := map (fun step => point_of (walker step)) (seq 1 20) in
  previousPositions full_trail !! Auditor.id (walker 21) = Some ps
  /\ length ps = 20%nat
  /\ located (point_of (walker 21))
  /\ previousPositions (updateAuditor (walker 21) full_trail)
       !! Auditor.id (walker 21)
     = Some (tail ps ++ [point_of (walker 21)])
  /\ routes (updateAuditor (walker 21) full_trail) !! Auditor.id (walker 21)
     = Some (path_of (tail ps ++ [point_of (walker 21)])).
Proof.
  intros ps.
  assert (previousPositions full_trail !! Auditor.id (walker 21) = Some ps)
    as H1 by (vm_compute; reflexivity).
  assert (length ps = 20%nat) as H2 by reflexivity.
  assert (located (point_of (walker 21))) as H3 by (split; reflexivity).
  assert (forall lastPosition, last ps = Some lastPosition ->
            differ lastPosition (point_of (walker 21)) = true) as H4.
  { intros lp Hlp. vm_compute in Hlp. injection Hlp as <-. reflexivity. }
  split; [exact H1|]. split; [exact H2|]. split; [exact H3|].
  apply (full_trail_evicts_oldest (walker 21) full_trail ps H1 H2 H3 H4).
Defined.

Lemma updateAuditor_trails_drawn auditor f :
  trails_are_drawn f -> trails_are_drawn (updateAuditor auditor f).
Proof.
  intros Hinv.
  destruct (updateAuditor_skip_or_push auditor f) as [->| ->]; [done|].
  set (ps' := pushed _ auditor).
  intros auditorId ps. rewrite drawTrail_previousPositions.
  cbn [previousPositions set_previousPositions]. unfold drawTrail.
  destruct (decide (auditorId = Auditor.id auditor)) as [->|Hne].
  - rewrite lookup_insert_eq. intros [= <-] Hlen.
    destruct (Nat.ltb_spec (length ps') 2) as [Hshort|_]; [lia|].
    cbn [routes set_previousPositions]. by rewrite lookup_insert_eq.
  - rewrite lookup_insert_ne by done. intros Hps Hlen.
    destruct (length ps' <? 2)%nat; cbn [routes set_previousPositions];
      rewrite ?lookup_insert_ne by done; by apply Hinv.
Qed.

Lemma updateRouteTrails_trails_drawn auditors : forall f,
  trails_are_drawn f -> trails_are_drawn (updateRouteTrails auditors f).
Proof.
  induction auditors as [|a auditors IH]; intros f Hinv; [done|].
  cbn. by apply IH, updateAuditor_trails_drawn.
Qed.

Lemma update_all_trails_drawn snapshots :
  trails_are_drawn (update_all snapshots).
Proof.
  unfold update_all. induction snapshots as [|s snapshots IH] using rev_ind.
  - intros i ps H. cbn in H. by rewrite lookup_empty in H.
  - rewrite foldl_snoc. by apply updateRouteTrails_trails_drawn.
Qed.

(** X17. Over any sequence of [updateRouteTrails] calls the map shows
    exactly the stored trails of two or more points: an auditor has a
    polyline if and only if its stored trail has at least two points, and
    the polyline runs through precisely the stored points, in order. *)
Theorem routes_show_exactly_the_stored_trails
    (snapshots : list (list Auditor.t)) (auditorId : string) (path : Path) :
  routes (update_all snapshots) !! auditorId = Some path
  <-> exists ps,
        previousPositions (update_all snapshots) !! auditorId = Some ps
        /\ (2 <= length ps)%nat
        /\ path = path_of ps.
Proof.
  split.
  - intros H. apply update_all_follows in H as (ps & Hps & -> & Hlen). eauto.
  - intros (ps & Hps & Hlen & ->). by apply update_all_trails_drawn.
Qed.

Lemma routes_show_exactly_the_stored_trails_witness :
  let ps := map (fun step => point_of (walker step)) (seq 1 20) in
  (exists ps',
     previousPositions full_trail !! "w" = Some ps'
     /\ (2 <= length ps')%nat /\ path_of ps = path_of ps')
  /\ routes full_trail !! "w" = Some (path_of ps).
Proof.
  intros ps. unfold full_trail.
  assert (exists ps',
            previousPositions
              (update_all (map (fun step => [walker step]) (seq 1 20))) !! "w"
            = Some ps'
            /\ (2 <= length ps')%nat /\ path_of ps = path_of ps') as H.
  { exists ps. split; [vm_compute; reflexivity|].
    split; [cbn; lia | reflexivity]. }
  split; [exact H|].
  exact (proj2 (routes_show_exactly_the_stored_trails
                  (map (fun step => [walker step]) (seq 1 20)) "w"
                  (path_of ps)) H).
Defined.

End TrailsMore.


(** ** More on alerts *)

Section AlertsMore.
Import Js Features Scenario Terms.

Lemma hasAlert_true i f : hasAlert i f = true <-> i ∈ Alert.id <$> alerts f.
Proof.
  unfold hasAlert. rewrite existsb_exists, list_elem_of_fmap. split.
  - intros (a & Ha & Heq). apply String.eqb_eq in Heq.
    exists a. split; [done|by apply list_elem_of_In].
  - intros (a & -> & Ha). exists a.
    split; [by apply list_elem_of_In|apply String.eqb_refl].
Qed.

Lemma hasAlert_addAlert i a f :
  hasAlert i (addAlert a f) = hasAlert i f || String.eqb (Alert.id a) i.
Proof. unfold hasAlert, addAlert. cbn. rewrite existsb_app. cbn. by rewrite orb_false_r. Qed.

Lemma hasAlert_removeAlert i j f :
  hasAlert i (removeAlert j f)
  = if decide (i = j) then false else hasAlert i f.
Proof.
  destruct (decide (i = j)) as [->|Hne].
  - apply not_true_is_false. rewrite hasAlert_true. cbn.
    intros (a & Heq & [Hne _]%list_elem_of_filter)%list_elem_of_fmap.
    by destruct Hne.
  - apply eq_true_iff_eq. rewrite !hasAlert_true. cbn.
    rewrite !list_elem_of_fmap. split.
    + intros (a & -> & [_ Ha]%list_elem_of_filter). eauto.
    + intros (a & -> & Ha). exists a. split; [done|].
      by apply list_elem_of_filter.
Qed.

(** An entry touches only the auditor's own two alert ids. *)
Lemma checkAuditor_other_ids now a f i :
  ~ own (Auditor.id a) i ->
  hasAlert i (checkAuditor now a f) = hasAlert i f.
Proof.
  intros Hnot. unfold own in Hnot.
  assert (i <> alertId Offline (Auditor.id a)) as Hoff by tauto.
  assert (i <> alertId LowAccuracy (Auditor.id a)) as Hacc by tauto.
  unfold checkAuditor.
  set (f1 := if (_ && negb (hasAlert (alertId Offline _) f)) then _ else f).
  assert (hasAlert i f1 = hasAlert i f) as H1.
  { subst f1. destruct (_ && _); [|done]. rewrite hasAlert_addAlert.
    cbn [Alert.id]. apply String.eqb_neq in Hoff.
    rewrite String.eqb_sym, Hoff. apply orb_false_r. }
  clearbody f1.
  set (f2 := if (_ && negb (hasAlert (alertId LowAccuracy _) f1))
             then _ else f1).
  assert (hasAlert i f2 = hasAlert i f) as H2.
  { subst f2. destruct (_ && _); [|done]. rewrite hasAlert_addAlert.
    cbn [Alert.id]. apply String.eqb_neq in Hacc.
    rewrite String.eqb_sym, Hacc. by rewrite orb_false_r. }
  clearbody f2.
  destruct (String.eqb _ _); [|done].
  rewrite !hasAlert_removeAlert. by rewrite !decide_False by done.
Qed.

Lemma own_other a b k :
  Auditor.id a <> Auditor.id b ->
  ~ own (Auditor.id b) (alertId k (Auditor.id a)).
Proof.
  intros Hne [H|H]; apply alertId_inj in H as [_ H]; by destruct Hne.
Qed.

Lemma filter_all_keep {A} (P : A -> Prop) `{forall x, Decision (P x)}
    (l : list A) :
  Forall P l -> filter P l = l.
Proof.
  induction 1 as [|x l Hx Hl IH]; [done|].
  by rewrite filter_cons_True, IH.
Qed.

Lemma set_alerts_same f : set_alerts (alerts f) f = f.
Proof. by destruct f. Qed.

Lemma alertId_kinds_differ e : alertId LowAccuracy e <> alertId Offline e.
Proof. discriminate. Qed.

(** What an online entry does to the alert list. *)
Lemma checkAuditor_online now a f :
  Auditor.status_class a = "online" ->
  checkAuditor now a f
  = set_alerts (filter (fun x => ~ own (Auditor.id a) (Alert.id x)) (alerts f))
               f.
Proof.
  intros Hst. unfold checkAuditor. rewrite Hst. cbn [String.eqb Ascii.eqb
    Bool.eqb andb].
  assert (forall l : list Alert.t,
            filter (fun x => Alert.id x <> alertId LowAccuracy (Auditor.id a))
              (filter (fun x => Alert.id x <> alertId Offline (Auditor.id a)) l)
            = filter (fun x => ~ own (Auditor.id a) (Alert.id x)) l) as Hff.
  { intros l. rewrite list_filter_filter. apply list_filter_iff.
    intros x. unfold own. tauto. }
  destruct (gt _ _ && negb _).
  - unfold removeAlert, addAlert. cbn [alerts set_alerts routes
      previousPositions drawn]. rewrite Hff, filter_app.
    rewrite (filter_cons_False _ _ []).
    + by rewrite filter_nil, app_nil_r.
    + cbn [Alert.id]. intros Hn. apply Hn. by right.
  - unfold removeAlert. cbn [alerts set_alerts routes previousPositions drawn].
    by rewrite Hff.
Qed.

(** X18. An online entry clears exactly the auditor's own alerts: after
    it, the alert list is the previous list without the auditor's offline
    and accuracy alerts, in the same order and with every other alert as it
    was; routes and trails are not touched. *)
Theorem online_report_clears_exactly_own_alerts
    (now : Z) (a : Auditor.t) (f : Features.t) :
  Auditor.status_class a = "online" ->
  let f' := checkAuditor now a f in
  alerts f' = filter (fun x => ~ own (Auditor.id a) (Alert.id x)) (alerts f)
  /\ routes f' = routes f
  /\ previousPositions f' = previousPositions f.
Proof.
  intros Hst f'. subst f'. by rewrite checkAuditor_online.
Qed.

Lemma online_report_clears_exactly_own_alerts_witness :
  Auditor.status_class online_asha = "online"
  /\ (let f := checkForAlerts 1 [offline_asha; stale_ravi] constructor in
      let f' := checkAuditor 2 online_asha f in
      alerts f'
      = filter (fun x => ~ own (Auditor.id online_asha) (Alert.id x))
               (alerts f)
      /\ routes f' = routes f
      /\ previousPositions f' = previousPositions f).
Proof.
  assert (Auditor.status_class online_asha = "online") as H by reflexivity.
  split; [exact H|].
  apply (online_report_clears_exactly_own_alerts 2 online_asha
           (checkForAlerts 1 [offline_asha; stale_ravi] constructor) H).
Defined.

(** After its own entry the alert set agrees with the auditor. *)
Lemma checkAuditor_settles now a f : settled a (checkAuditor now a f).
Proof.
  unfold settled.
  destruct (decide (Auditor.status_class a = "online")) as [Hon|Hoff].
  - split; [intros H; rewrite H in Hon; discriminate|].
    split; [done|]. intros _.
    split; apply not_true_is_false; rewrite hasAlert_true;
      rewrite checkAuditor_online by done; cbn [alerts set_alerts];
      intros (x & Heq & [Hn _]%list_elem_of_filter)%list_elem_of_fmap;
      apply Hn; rewrite <- Heq; [by left | by right].
  - apply String.eqb_neq in Hoff as Hoff'. unfold checkAuditor.
    rewrite Hoff'.
    set (f1 := if (_ && negb (hasAlert (alertId Offline _) f)) then _ else f).
    assert (Auditor.status_class a = "offline" ->
            hasAlert (alertId Offline (Auditor.id a)) f1 = true) as H1.
    { intros Hst. subst f1. rewrite Hst. cbn [String.eqb Ascii.eqb Bool.eqb
        andb].
      destruct (hasAlert _ f) eqn:Hh; cbn [negb]; [done|].
      rewrite hasAlert_addAlert. cbn [Alert.id].
      by rewrite String.eqb_refl, orb_true_r. }
    clearbody f1.
    set (f2 := if (_ && negb (hasAlert (alertId LowAccuracy _) f1))
               then _ else f1).
    assert (forall i, hasAlert i f1 = true -> hasAlert i f2 = true) as Hmono.
    { intros i Hi. subst f2. destruct (_ && _); [|done].
      rewrite hasAlert_addAlert, Hi. reflexivity. }
    assert (gt (Auditor.accuracy a) 500 = true ->
            hasAlert (alertId LowAccuracy (Auditor.id a)) f2 = true) as H2.
    { intros Hgt. subst f2. rewrite Hgt. cbn [andb].
      destruct (hasAlert (alertId LowAccuracy (Auditor.id a)) f1) eqn:Hh;
        cbn [negb]; [done|].
      rewrite hasAlert_addAlert. cbn [Alert.id].
      by rewrite String.eqb_refl, orb_true_r. }
    clearbody f2.
    split; [by intros Hst; apply Hmono, H1|]. split; [by intros _|done].
Qed.

(** Entries of other auditors do not disturb the agreement. *)
Lemma checkAuditor_keeps_settled now a b f :
  Auditor.id a <> Auditor.id b ->
  settled a f -> settled a (checkAuditor now b f).
Proof.
  intros Hne. unfold settled.
  by rewrite !checkAuditor_other_ids by by apply own_other.
Qed.

Lemma checkForAlerts_keeps_settled now a auditors : forall f,
  Auditor.id a ∉ Auditor.id <$> auditors ->
  settled a f -> settled a (checkForAlerts now auditors f).
Proof.
  induction auditors as [|b auditors IH]; intros f Hnotin Hs; [done|].
  rewrite fmap_cons in Hnotin. apply not_elem_of_cons in Hnotin as [Hne Hnotin].
  cbn. apply IH; [done|]. by apply checkAuditor_keeps_settled.
Qed.

Lemma checkForAlerts_settles now auditors : forall f a,
  NoDup (Auditor.id <$> auditors) ->
  a ∈ auditors ->
  settled a (checkForAlerts now auditors f).
Proof.
  induction auditors as [|b auditors IH]; intros f a Hnd Ha.
  - by apply elem_of_nil in Ha.
  - rewrite fmap_cons in Hnd. apply NoDup_cons in Hnd as [Hnotin Hnd].
    cbn. apply elem_of_cons in Ha as [->|Ha].
    + apply checkForAlerts_keeps_settled; [done|apply checkAuditor_settles].
    + by apply IH.
Qed.

(** X19. After a [checkForAlerts] call over a snapshot in which every
    auditor id occurs once, the alert set agrees with every entry of the
    snapshot: each offline auditor has its offline alert, each auditor that
    is not online and reports an accuracy above 500 has its accuracy alert,
    and each online auditor has neither alert. *)
Theorem alerts_agree_with_snapshot
    (now : Z) (auditors : list Auditor.t) (f : Features.t) (a : Auditor.t) :
  NoDup (Auditor.id <$> auditors) ->
  a ∈ auditors ->
  settled a (checkForAlerts now auditors f).
Proof. apply checkForAlerts_settles. Qed.

Lemma alerts_agree_with_snapshot_witness :
  NoDup (Auditor.id <$> [offline_asha; stale_ravi])
  /\ stale_ravi ∈ [offline_asha; stale_ravi]
  /\ settled stale_ravi
       (checkForAlerts 1 [offline_asha; stale_ravi] constructor).
Proof.
  assert (NoDup (Auditor.id <$> [offline_asha; stale_ravi])) as H1.
  { cbn. apply NoDup_cons. split; [|apply NoDup_singleton].
    intros [=]%list_elem_of_singleton. }
  assert (stale_ravi ∈ [offline_asha; stale_ravi]) as H2
    by (apply list_elem_of_further, list_elem_of_here).
  split; [exact H1|]. split; [exact H2|].
  apply (alerts_agree_with_snapshot 1 [offline_asha; stale_ravi] constructor
           stale_ravi H1 H2).
Defined.

(** An entry the alert set already agrees with changes nothing. *)
Lemma checkAuditor_settled_noop now a f :
  settled a f -> checkAuditor now a f = f.
Proof.
  intros (Hoff & Hacc & Hon).
  destruct (decide (Auditor.status_class a = "online")) as [Hst|Hst].
  - destruct (Hon Hst) as [H1 H2]. rewrite checkAuditor_online by done.
    rewrite filter_all_keep; [apply set_alerts_same|].
    apply Forall_forall. intros x Hx [Hown|Hown].
    + apply not_true_iff_false in H1. apply H1, hasAlert_true.
      rewrite <- Hown. by apply list_elem_of_fmap_2.
    + apply not_true_iff_false in H2. apply H2, hasAlert_true.
      rewrite <- Hown. by apply list_elem_of_fmap_2.
  - unfold checkAuditor. apply String.eqb_neq in Hst as Hst'. rewrite Hst'.
    assert (String.eqb (Auditor.status_class a) "offline"
            && negb (hasAlert (alertId Offline (Auditor.id a)) f) = false)
      as ->.
    { destruct (String.eqb_spec (Auditor.status_class a) "offline") as [H|H];
        [|done]. by rewrite (Hoff H). }
    destruct (gt (Auditor.accuracy a) 500) eqn:Hgt; [|done].
    by rewrite (Hacc Hst eq_refl).
Qed.

Lemma checkForAlerts_settled_noop now auditors f :
  (forall a, a ∈ auditors -> settled a f) ->
  checkForAlerts now auditors f = f.
Proof.
  induction auditors as [|b auditors IH]; intros Hall; [done|].
  cbn. rewrite checkAuditor_settled_noop by (apply Hall, list_elem_of_here).
  apply IH. intros a Ha. by apply Hall, list_elem_of_further.
Qed.

(** X20. [checkForAlerts] is idempotent on snapshots in which every
    auditor id occurs once: evaluating the same snapshot again, at any
    later time, leaves the object exactly as the first evaluation left it
    (no alert is raised twice, none is re-stamped, none is cleared). *)
Theorem checkForAlerts_idempotent
    (now later : Z) (auditors : list Auditor.t) (f : Features.t) :
  NoDup (Auditor.id <$> auditors) ->
  checkForAlerts later auditors (checkForAlerts now auditors f)
  = checkForAlerts now auditors f.
Proof.
  intros Hnd. apply checkForAlerts_settled_noop.
  intros a Ha. by apply checkForAlerts_settles.
Qed.

Lemma checkForAlerts_idempotent_witness :
  NoDup (Auditor.id <$> [offline_asha; stale_ravi])
  /\ checkForAlerts 2 [offline_asha; stale_ravi]
       (checkForAlerts 1 [offline_asha; stale_ravi] constructor)
     = checkForAlerts 1 [offline_asha; stale_ravi] constructor.
Proof.
  assert (NoDup (Auditor.id <$> [offline_asha; stale_ravi])) as H1.
  { cbn. apply NoDup_cons. split; [|apply NoDup_singleton].
    intros [=]%list_elem_of_singleton. }
  split; [exact H1|].
  apply (checkForAlerts_idempotent 1 2 [offline_asha; stale_ravi]
           constructor H1).
Defined.

(** The uniqueness of ids matters: when a snapshot lists the same auditor
    first online and then offline, the second evaluation clears the alert
    and raises it again with the later time stamp. *)
Example checkForAlerts_duplicate_ids_restamp :
  Alert.timestamp <$> alerts (checkForAlerts 1 [online_asha; offline_asha]
                                constructor) = [1; 1]
  /\ Alert.timestamp
       <$> alerts (checkForAlerts 2 [online_asha; offline_asha]
                     (checkForAlerts 1 [online_asha; offline_asha]
                        constructor)) = [2; 2].
Proof. vm_compute. split; reflexivity. Qed.

Lemma checkAuditor_not_online_prefix now a f :
  Auditor.status_class a <> "online" ->
  alerts f `prefix_of` alerts (checkAuditor now a f).
Proof.
  intros Hst. unfold checkAuditor. apply String.eqb_neq in Hst. rewrite Hst.
  set (f1 := if (_ && negb (hasAlert (alertId Offline _) f)) then _ else f).
  assert (alerts f `prefix_of` alerts f1) as H1.
  { subst f1. destruct (_ && _); [|done]. cbn. by apply prefix_app_r. }
  clearbody f1. etrans; [exact H1|].
  destruct (_ && _); [|done]. cbn. by apply prefix_app_r.
Qed.

(** X21. Alerts are cleared by online entries only: when no entry of the
    snapshot is online, [checkForAlerts] keeps every alert it found, in
    order, and at most appends new ones. *)
Theorem alerts_cleared_only_by_online_entries
    (now : Z) (auditors : list Auditor.t) (f : Features.t) :
  Forall (fun a => Auditor.status_class a <> "online") auditors ->
  alerts f `prefix_of` alerts (checkForAlerts now auditors f).
Proof.
  revert f. induction auditors as [|a auditors IH]; intros f Hall; [done|].
  apply Forall_cons in Hall as [Ha Hall]. cbn.
  etrans; [by apply (checkAuditor_not_online_prefix now a)|]. by apply IH.
Qed.

Lemma alerts_cleared_only_by_online_entries_witness :
  Forall (fun a => Auditor.status_class a <> "online")
         [offline_asha; stale_ravi]
  /\ alerts (checkForAlerts 1 [offline_asha] constructor)
     `prefix_of` alerts (checkForAlerts 2 [offline_asha; stale_ravi]
                           (checkForAlerts 1 [offline_asha] constructor)).
Proof.
  assert (Forall (fun a => Auditor.status_class a <> "online")
                 [offline_asha; stale_ravi]) as H.
  { repeat constructor; discriminate. }
  split; [exact H|].
  apply (alerts_cleared_only_by_online_entries 2 [offline_asha; stale_ravi]
           (checkForAlerts 1 [offline_asha] constructor) H).
Defined.

End AlertsMore.


(** ** Display, test buttons and statistics *)

Section Panels.
Import Js Geo Display Scenario Terms.

Lemma lt_above t a b : (a <= b)%Q -> Js.lt t a = true -> Js.lt t b = true.
Proof.
  unfold Js.lt. rewrite !negb_true_iff. intros Hab Ha.
  apply not_true_is_false. intros Hb. apply Qle_bool_iff in Hb.
  assert (Qle_bool a t = true); [|congruence].
  apply Qle_bool_iff. by eapply Qle_trans.
Qed.

(** X22. The quality label is monotone in the accuracy radius: a larger
    radius never gets a better label. *)
Theorem accuracy_quality_monotone (a b : Q) :
  (a <= b)%Q ->
  (quality_rank (snd (accuracyQuality a))
   <= quality_rank (snd (accuracyQuality b)))%nat.
Proof.
  intros Hab.
  pose proof (lt_above 1000 a b Hab) as H4.
  pose proof (lt_above 500 a b Hab) as H3.
  pose proof (lt_above 100 a b Hab) as H2.
  pose proof (lt_above 50 a b Hab) as H1.
  unfold accuracyQuality.
  destruct (Js.lt 1000 a), (Js.lt 500 a), (Js.lt 100 a), (Js.lt 50 a);
    repeat match goal with
    | H : true = true -> _ |- _ => specialize (H eq_refl); rewrite ?H
    end;
    destruct (Js.lt 1000 b), (Js.lt 500 b), (Js.lt 100 b), (Js.lt 50 b);
    try discriminate; cbn; lia.
Qed.

Lemma accuracy_quality_monotone_witness :
  (40 <= 620)%Q
  /\ (quality_rank (snd (accuracyQuality 40))
      <= quality_rank (snd (accuracyQuality 620)))%nat.
Proof.
  assert (40 <= 620)%Q as H by (unfold Qle; cbn; lia).
  split; [exact H|]. apply (accuracy_quality_monotone 40 620 H).
Defined.

(** X23. [displayLocationError] never shows its [customMessage]: the text
    and the suggestion it displays depend on the error alone. *)
Theorem displayLocationError_ignores_custom_message
    (error : PositionError) (first second : option string) :
  displayLocationError error first = displayLocationError error second.
Proof.
  unfold displayLocationError. by destruct (code error) as [|[[]|[]|]|].
Qed.

Lemma round_whole z : round (inject_Z z) = z.
Proof.
  unfold round.
  assert (z <= Qfloor (inject_Z z + (1 # 2)))%Z as Hlo.
  { rewrite <- (Qfloor_Z z) at 1. apply Qfloor_resp_le. lra. }
  assert (Qfloor (inject_Z z + (1 # 2)) < z + 1)%Z as Hhi.
  { rewrite Zlt_Qlt, inject_Z_plus.
    pose proof (Qfloor_le (inject_Z z + (1 # 2))) as H.
    change (inject_Z 1) with 1%Q. lra. }
  lia.
Qed.

Lemma lt_proper t a b : (a == b)%Q -> Js.lt t a = Js.lt t b.
Proof.
  intros Hab. apply eq_true_iff_eq. split; apply lt_above; lra.
Qed.

Lemma accuracyQuality_proper a b :
  (a == b)%Q -> accuracyQuality a = accuracyQuality b.
Proof.
  intros Hab. unfold accuracyQuality.
  by rewrite !(lt_proper _ a b Hab).
Qed.

(** X24. The tracking panel labels the rounded accuracy and the test
    panel the raw one. For a whole number of metres both show the same
    label and colour; for other values they can disagree: at 50.4m the
    tracking panel says Excellent and the test panel says Good. *)
Theorem tracking_and_test_labels
    (this : Tracker.LocationTracker) (source : string) :
  (forall (position : Position) (z : Z),
     (accuracy (coords position) == inject_Z z)%Q ->
     view_text (updateLocationDisplay this position)
       = accuracyText (displayLocationResult position source)
     /\ view_color (updateLocationDisplay this position)
        = accuracyColor (displayLocationResult position source))
  /\ view_text (updateLocationDisplay this (sample 50.4)) = "Excellent"
  /\ accuracyText (displayLocationResult (sample 50.4) source) = "Good".
Proof.
  split; [|split; reflexivity].
  intros position z Hz. unfold updateLocationDisplay, displayLocationResult.
  cbn [view_text view_color accuracyText accuracyColor].
  assert (round (accuracy (coords position)) = z) as ->.
  { unfold round. rewrite <- (round_whole z). unfold round.
    apply Qfloor_comp. by rewrite Hz. }
  by rewrite (accuracyQuality_proper _ _ Hz).
Qed.

Lemma tracking_and_test_labels_witness :
  (accuracy (coords (sample 80)) == inject_Z 80)%Q
  /\ view_text (updateLocationDisplay Tracker.constructor (sample 80))
     = accuracyText (displayLocationResult (sample 80) "GPS").
Proof.
  assert (accuracy (coords (sample 80)) == inject_Z 80)%Q as H by reflexivity.
  split; [exact H|].
  apply (proj1 (tracking_and_test_labels Tracker.constructor "GPS")
           (sample 80) 80 H).
Defined.

(** X25. [isLocationAccurate] accepts exactly the positions that the test
    panel labels Excellent. *)
Theorem accurate_iff_excellent (position : Position) (source : string) :
  isLocationAccurate position = true
  <-> accuracyText (displayLocationResult position source) = "Excellent".
Proof.
  unfold isLocationAccurate, displayLocationResult, accuracyQuality, Js.lt.
  cbn [accuracyText].
  set (a := accuracy (coords position)).
  destruct (Qle_bool a 50) eqn:H50.
  - apply Qle_bool_iff in H50.
    assert (Qle_bool a 1000 = true) as -> by (apply Qle_bool_iff; lra).
    assert (Qle_bool a 500 = true) as -> by (apply Qle_bool_iff; lra).
    assert (Qle_bool a 100 = true) as -> by (apply Qle_bool_iff; lra).
    done.
  - cbn. split; [done|].
    by destruct (Qle_bool a 1000), (Qle_bool a 500), (Qle_bool a 100).
Qed.

Lemma ultra_request_budget_bound script :
  (requests (getCurrentLocationUltraAccuracy script) <= 3)%nat.
Proof.
  unfold getCurrentLocationUltraAccuracy.
  destruct (tryGetLocation_budget script None 0%nat 0%nat 0%nat)
    as (H1 & H2 & H3); [unfold maxAttempts; lia|].
  unfold maxAttempts in *. lia.
Qed.

Lemma displayLocationError_same error first second :
  displayLocationError error first = displayLocationError error second.
Proof.
  unfold displayLocationError. by destruct (code error) as [|[[]|[]|]|].
Qed.

(** A rejected acquisition made one request, and it failed. *)
Lemma ultra_rejected_first script e :
  outcome (getCurrentLocationUltraAccuracy script) = Rejected e ->
  requests (getCurrentLocationUltraAccuracy script) = 1%nat
  /\ exists rest, script = GeoFailure e :: rest.
Proof.
  unfold getCurrentLocationUltraAccuracy.
  destruct script as [|[q|e'] script]; [discriminate| |].
  - cbn [tryGetLocation]. destruct (Qle_bool _ _ || _); [discriminate|].
    intros H. by apply tryGetLocation_retained_never_rejects in H.
  - cbn. intros [= ->]. eauto.
Qed.

(** X26. [testCurrentLocation] shows an error only when the first request
    of the acquisition and the fallback request both fail, and the error it
    shows is the fallback's, not the acquisition's. In every case it issues
    at most three position requests. *)
Theorem test_location_error_needs_two_failures
    (script : list GeoOutcome) (fallback : option GeoOutcome)
    (panel : TestPanel) :
  let panel' := testCurrentLocation script fallback panel in
  (positionRequests panel' <= positionRequests panel + 3)%nat
  /\ forall errorMsg suggestions,
       testResult panel' = LocationError errorMsg suggestions ->
       exists first rest second,
         script = GeoFailure first :: rest
         /\ fallback = Some (GeoFailure second)
         /\ (errorMsg, suggestions) = displayLocationError second None.
Proof.
  intros panel'. subst panel'. unfold testCurrentLocation.
  pose proof (ultra_request_budget_bound script) as Hbudget.
  destruct (outcome (getCurrentLocationUltraAccuracy script)) as [p|e|] eqn:Hrun.
  - cbn. split; [lia|]. intros ? ? [=].
  - apply ultra_rejected_first in Hrun as [Hone (rest & ->)].
    rewrite Hone. unfold getCurrentLocationHighAccuracy, single_request.
    destruct fallback as [[p|e2]|]; cbn.
    + split; [lia|]. intros ? ? [=].
    + split; [lia|]. intros ? ? [= <- <-].
      exists e, rest, e2. split; [done|]. split; [done|].
      rewrite (displayLocationError_same e2 None
                 (Some "All location methods failed.")).
      by destruct (displayLocationError _ _).
    + split; [lia|]. intros ? ? [=].
  - cbn. split; [lia|]. intros ? ? [=].
Qed.

Lemma test_location_error_needs_two_failures_witness :
  let panel' :=
    testCurrentLocation [GeoFailure timeout_error]
      (Some (GeoFailure denied_error)) initial_panel in
  testResult panel'
    = LocationError "Location permission denied"
        "<br><small>💡 Please enable location access in your browser settings</small>"
  /\ exists first rest second,
       [GeoFailure timeout_error] = GeoFailure first :: rest
       /\ Some (GeoFailure denied_error) = Some (GeoFailure second)
       /\ ("Location permission denied",
           "<br><small>💡 Please enable location access in your browser settings</small>")
          = displayLocationError second None.
Proof.
  intros panel'.
  assert (testResult panel'
          = LocationError "Location permission denied"
              "<br><small>💡 Please enable location access in your browser settings</small>")
    as H by reflexivity.
  split; [exact H|].
  exact (proj2 (test_location_error_needs_two_failures
                  [GeoFailure timeout_error] (Some (GeoFailure denied_error))
                  initial_panel) _ _ H).
Defined.

(** X27. Each test button is disabled after its method exactly when the
    result area still shows the search note, that is, when a position
    request was never answered; in every other case the [finally] block has
    enabled the button again and the area shows a location or an error.
    Neither method touches the other button. *)
Theorem test_buttons_disabled_while_searching :
  (forall script fallback panel,
     let panel' := testCurrentLocation script fallback panel in
     (disabled (testBtn panel') = true <-> searching (testResult panel'))
     /\ (disabled (testBtn panel') = false ->
         textContent (testBtn panel') = "📍 Test Current Location")
     /\ networkBtn panel' = networkBtn panel)
  /\ (forall answer panel,
       let panel' := testNetworkLocation answer panel in
       (disabled (networkBtn panel') = true <-> searching (testResult panel'))
       /\ (disabled (networkBtn panel') = false ->
           textContent (networkBtn panel') = "📶 Use Network Location")
       /\ testBtn panel' = testBtn panel).
Proof.
  split.
  - intros script fallback panel panel'. subst panel'.
    unfold testCurrentLocation, getCurrentLocationHighAccuracy, single_request.
    destruct (outcome (getCurrentLocationUltraAccuracy script)) as [p|e|];
      [| destruct fallback as [[p|e2]|] |]; cbn;
      (split; [split; [discriminate || done | done || tauto]|]);
      (split; [done || discriminate | done]).
  - intros answer panel panel'. subst panel'.
    unfold testNetworkLocation, getCurrentLocationNetwork, single_request.
    destruct answer as [[p|e]|]; cbn;
      (split; [split; [discriminate || done | done || tauto]|]);
      (split; [done || discriminate | done]).
Qed.

Lemma test_buttons_disabled_while_searching_witness :
  let panel' := testCurrentLocation [GeoSuccess (sample 300)] None initial_panel in
  searching (testResult panel') /\ disabled (testBtn panel') = true.
Proof.
  intros panel'.
  assert (searching (testResult panel')) as H by exact I.
  split; [exact H|].
  exact (proj2 (proj1 (proj1 test_buttons_disabled_while_searching
                         [GeoSuccess (sample 300)] None initial_panel)) H).
Defined.

End Panels.

Section Statistics.
Import Js Analytics Terms.

Lemma count_status_cons status a auditors :
  count_status status (a :: auditors)
  = ((if decide (Auditor.status_class a = status) then 1 else 0)
     + count_status status auditors)%nat.
Proof.
  unfold count_status. rewrite filter_cons.
  by destruct (decide (Auditor.status_class a = status)).
Qed.

(** X28. The four status counts of the statistics panel never exceed the
    total, and they add up to the total exactly when every entry of the
    snapshot has one of the four statuses the panel lists; an entry with any
    other status is counted in the total only. *)
Theorem status_counts_add_up (auditors : list Auditor.t) :
  let s := updateAnalytics auditors in
  (online s + recent s + stale s + offline s <= total s)%nat
  /\ ((online s + recent s + stale s + offline s)%nat = total s
      <-> Forall known_status auditors).
Proof.
  cbn. induction auditors as [|a auditors [IHle IHeq]].
  - cbn. split; [lia|]. split; [constructor|done].
  - rewrite !count_status_cons. cbn [length]. rewrite Forall_cons.
    unfold known_status at 1.
    destruct (decide (Auditor.status_class a = "online")) as [H1|H1];
      destruct (decide (Auditor.status_class a = "recent")) as [H2|H2];
      destruct (decide (Auditor.status_class a = "stale")) as [H3|H3];
      destruct (decide (Auditor.status_class a = "offline")) as [H4|H4];
      try (rewrite H1 in *; discriminate);
      try (rewrite H2 in *; discriminate);
      try (rewrite H3 in *; discriminate);
      (split; [lia|]); rewrite <- IHeq; split;
      try (intros [? ?]); try intros ?; try lia; try (split; [tauto|lia]).
    tauto.
Qed.

End Statistics.


(** ** The alerts panel *)

Section Panel.
Import Js Scenario Terms AlertsPanel.

(** The DOM writes do not change what the object computes. *)
Lemma panel_checkAuditor_object now a s :
  fst (checkAuditor now a s) = Features.checkAuditor now a (fst s).
Proof.
  unfold checkAuditor, Features.checkAuditor.
  set (c1 := _ && negb (Features.hasAlert
                          (Features.alertId Features.Offline _) (fst s))).
  destruct c1; cbn [fst addAlert];
    match goal with
    | |- context [gt ?x ?y && negb ?h] => destruct (gt x y && negb h)
    end; cbn [fst addAlert]; destruct (String.eqb _ _); try reflexivity;
    unfold removeAlert, updateAlertsDisplay; cbn [fst snd];
    repeat match goal with
    | |- context [(length ?l =? 0)%nat] => destruct (length l =? 0)%nat
    end; reflexivity.
Qed.

Lemma updateAlertsDisplay_object s : fst (updateAlertsDisplay s) = fst s.
Proof. unfold updateAlertsDisplay. by destruct (_ =? _)%nat. Qed.

Lemma panel_removeAlert_object i s :
  fst (removeAlert i s) = Features.removeAlert i (fst s).
Proof. unfold removeAlert. by rewrite updateAlertsDisplay_object. Qed.

Lemma panel_fold_object now auditors : forall s,
  fst (foldl (fun s auditor => checkAuditor now auditor s) s auditors)
  = Features.checkForAlerts now auditors (fst s).
Proof.
  induction auditors as [|a auditors IH]; intros s; [done|].
  cbn. by rewrite IH, panel_checkAuditor_object.
Qed.

Lemma panel_checkForAlerts_object now auditors s :
  fst (checkForAlerts now auditors s)
  = Features.checkForAlerts now auditors (fst s).
Proof.
  unfold checkForAlerts. by rewrite updateAlertsDisplay_object, panel_fold_object.
Qed.

Lemma length_zero_nil {A} (l : list A) : (length l =? 0)%nat = true <-> l = [].
Proof. rewrite Nat.eqb_eq. by destruct l. Qed.

Lemma updateAlertsDisplay_tracks s :
  toggle_tracks_alerts s -> toggle_tracks_alerts (updateAlertsDisplay s).
Proof.
  unfold toggle_tracks_alerts, updateAlertsDisplay.
  destruct (length (Features.alerts (fst s)) =? 0)%nat eqn:Hlen; cbn.
  - apply length_zero_nil in Hlen. by right.
  - done.
Qed.

Lemma updateAlertsDisplay_in_sync s : panel_in_sync (updateAlertsDisplay s).
Proof.
  unfold panel_in_sync, updateAlertsDisplay.
  destruct (length (Features.alerts (fst s)) =? 0)%nat eqn:Hlen; cbn.
  - apply length_zero_nil in Hlen. by intros [].
  - done.
Qed.

Lemma addAlert_tracks alert s : toggle_tracks_alerts (addAlert alert s).
Proof.
  left. cbn. split; [done|]. by destruct (Features.alerts (fst s)).
Qed.

Lemma removeAlert_tracks i s :
  toggle_tracks_alerts s -> toggle_tracks_alerts (removeAlert i s).
Proof.
  intros Ht. unfold removeAlert, updateAlertsDisplay. cbn [fst snd].
  destruct (length _ =? 0)%nat eqn:Hlen.
  - apply length_zero_nil in Hlen. by right.
  - left. cbn. split.
    + destruct Ht as [[Hd _]|[_ He]]; [done|]. cbn in Hlen.
      rewrite He in Hlen. discriminate.
    + intros He. cbn in He. cbn in Hlen. by rewrite He in Hlen.
Qed.

Lemma checkAuditor_tracks now a s :
  toggle_tracks_alerts s -> toggle_tracks_alerts (checkAuditor now a s).
Proof.
  intros Ht. unfold checkAuditor.
  set (c1 := _ && negb (Features.hasAlert
                          (Features.alertId Features.Offline _) (fst s))).
  set (s1 := if c1 then _ else s).
  assert (toggle_tracks_alerts s1) as H1
    by (subst s1; destruct c1; [apply addAlert_tracks|done]).
  clearbody s1. clear c1.
  set (c2 := _ && negb (Features.hasAlert
                          (Features.alertId Features.LowAccuracy _) (fst s1))).
  set (s2 := if c2 then _ else s1).
  assert (toggle_tracks_alerts s2) as H2
    by (subst s2; destruct c2; [apply addAlert_tracks|done]).
  clearbody s2. clear c2.
  destruct (String.eqb _ _); [|done]. by do 2 apply removeAlert_tracks.
Qed.

Lemma handle_tracks s e : toggle_tracks_alerts s -> toggle_tracks_alerts (handle s e).
Proof.
  intros Ht. destruct e as [now auditors|i]; cbn [handle].
  - unfold checkForAlerts. apply updateAlertsDisplay_tracks.
    revert s Ht. induction auditors as [|a auditors IH]; intros s Ht; [done|].
    cbn. by apply IH, checkAuditor_tracks.
  - by apply removeAlert_tracks.
Qed.

Lemma handle_in_sync s e : panel_in_sync (handle s e).
Proof. destruct e; apply updateAlertsDisplay_in_sync. Qed.

Lemma handle_NoDup s e :
  NoDup (Alert.id <$> Features.alerts (fst s)) ->
  NoDup (Alert.id <$> Features.alerts (fst (handle s e))).
Proof.
  intros Hnd. destruct e as [now auditors|i]; cbn [handle].
  - rewrite panel_checkForAlerts_object. by apply checkForAlerts_NoDup.
  - rewrite panel_removeAlert_object. by apply removeAlert_NoDup.
Qed.

(** X29. Over any sequence of feed evaluations and dismiss clicks, the
    toggle button is shown exactly when there is at least one alert;
    whenever there are alerts the list shows precisely the current alerts
    and the badge their number ("9+" above nine); and the alert ids stay
    pairwise distinct, dismissals included. *)
Theorem alerts_panel_follows_alerts (events : list Event) :
  toggle_tracks_alerts (run events)
  /\ panel_in_sync (run events)
  /\ NoDup (Alert.id <$> Features.alerts (fst (run events))).
Proof.
  unfold run. induction events as [|e events IH] using rev_ind.
  - cbn. split; [by right|]. split; [by intros []|apply NoDup_nil_2].
  - rewrite foldl_snoc. destruct IH as (Ht & _ & Hnd).
    split; [by apply handle_tracks|].
    split; [apply handle_in_sync|by apply handle_NoDup].
Qed.

(** The list is not emptied with the last alert: after an offline report
    and then an online one there is no alert and the button is hidden, but
    the list still holds the block rendered before the last removal. *)
Example alerts_panel_stale_list :
  let s := run [Evaluate 1 [offline_asha]; Evaluate 2 [online_asha]] in
  Features.alerts (fst s) = []
  /\ toggleDisplay (snd s) = "none"
  /\ toggleText (snd s) = "1"
  /\ (Alert.id <$> listed (snd s)) = ["accuracy_7"].
Proof. vm_compute. repeat split; reflexivity. Qed.

End Panel.
